(** * GasRun leaderboard: the incremental log-aggregation engine

    A shallow embedding of [api/leaderboard.js] (the serverless function
    behind [/api/leaderboard]) and of the two sibling revisions of the
    same file that the repository carries, followed by the properties of
    the event codec, the chunked log scan, the aggregation state machine,
    the pruning of week buckets and the request orchestrator.

    Conventions of the embedding.
    - A JavaScript string is a [string]: one [ascii] per UTF-16 code unit,
      for code units below 256.
    - A [BigInt] is a [Z].  A [Number] that holds an integer (block
      counts, lengths, millisecond timestamps) is a [Z] as well; the
      conversions and the arithmetic that can round are written out
      ([Number_of_BigInt], [dadd], [dmul]).
    - A [Map] is an association list in insertion order.
    - Code that talks to the outside world (clock, JSON-RPC nodes, the
      explorer API, the key-value store) runs in the monad [M]: it
      threads a [World] that records every interaction, and asks an
      environment [Env] for the outcome of each one. *)

From Stdlib Require Import ZArith List Bool Lia String Ascii.
From Stdlib Require Import DecimalString Decimal Permutation Sorted.
Import ListNotations.

Set Warnings "-register-all".
Open Scope string_scope.
Open Scope Z_scope.

(* ================================================================= *)
(** * Part I: the program *)
(* ================================================================= *)

(** ** JavaScript values the program relies on *)

(** What [throw] carries: the fields of an [Error] the program reads
    ([message], and [httpStatus] / [bodyText] / [code] when set). *)
Record JsError := mkError {
  message : string;
  httpStatus : option Z;
  bodyText : option string;
  code : option string
}.

Definition Error (msg : string) : JsError := mkError msg None None None.

(** Result of a pure computation that may throw. *)
Inductive res (A : Type) : Type :=
| Ok (a : A)
| Raise (e : JsError).
Arguments Ok {A} a.
Arguments Raise {A} e.

Definition res_bind {A B} (r : res A) (k : A -> res B) : res B :=
  match r with
  | Ok a => k a
  | Raise e => Raise e
  end.

Module Js.

Definition len (s : string) : Z := Z.of_nat (String.length s).

(** Relative index of [String.prototype.slice]: a negative index counts
    from the end, and every index is clamped to [0 .. length]. *)
Definition relIndex (n i : Z) : Z :=
  if i <? 0 then Z.max (n + i) 0 else Z.min i n.

(** [s.slice(a, b)] *)
Definition slice (s : string) (a b : Z) : string :=
  let n := len s in
  let from := relIndex n a in
  let to := relIndex n b in
  String.substring (Z.to_nat from) (Z.to_nat (Z.max (to - from) 0)) s.

(** [s.slice(a)] *)
Definition sliceFrom (s : string) (a : Z) : string := slice s a (len s).

(** [s.startsWith(p)] *)
Definition startsWith (s p : string) : bool := String.prefix p s.

(** [s.includes(p)] *)
Fixpoint includes (s p : string) : bool :=
  if String.prefix p s then true
  else match s with
       | EmptyString => false
       | String _ r => includes r p
       end.

Definition between (lo hi : nat) (c : ascii) : bool :=
  let n := nat_of_ascii c in (Nat.leb lo n && Nat.leb n hi)%bool.

(** [toLowerCase] on code units below 256: A-Z and the Latin-1 capitals
    (all of 0xC0-0xDE but the multiplication sign 0xD7). *)
Definition lowerChar (c : ascii) : ascii :=
  if (between 65 90 c
      || (between 192 222 c && negb (Nat.eqb (nat_of_ascii c) 215)))%bool
  then ascii_of_nat (nat_of_ascii c + 32) else c.

Fixpoint toLowerCase (s : string) : string :=
  match s with
  | EmptyString => EmptyString
  | String c r => String (lowerChar c) (toLowerCase r)
  end.

(** White space and line terminators that [StringToBigInt] trims
    (TAB, LF, VT, FF, CR, SP, NBSP). *)
Definition isWhite (c : ascii) : bool :=
  let n := nat_of_ascii c in
  (between 9 13 c || Nat.eqb n 32 || Nat.eqb n 160)%bool.

Fixpoint trimStart (s : string) : string :=
  match s with
  | EmptyString => EmptyString
  | String c r => if isWhite c then trimStart r else s
  end.

Fixpoint trimEnd (s : string) : string :=
  match s with
  | EmptyString => EmptyString
  | String c r =>
      match trimEnd r with
      | EmptyString => if isWhite c then EmptyString else String c EmptyString
      | r' => String c r'
      end
  end.

Definition trim (s : string) : string := trimEnd (trimStart s).

(** Value of a character as a digit: 0-9, then a-z / A-Z from 10. *)
Definition digitVal (c : ascii) : option Z :=
  let n := Z.of_nat (nat_of_ascii c) in
  if between 48 57 c then Some (n - 48)
  else if between 97 122 c then Some (n - 87)
  else if between 65 90 c then Some (n - 55)
  else None.

(** Digits of [s] in [base], most significant first, on top of [acc]. *)
Fixpoint digitsVal (base acc : Z) (s : string) : option Z :=
  match s with
  | EmptyString => Some acc
  | String c r =>
      match digitVal c with
      | Some d => if d <? base then digitsVal base (acc * base + d) r else None
      | None => None
      end
  end.

(** One digit at least. *)
Definition literal (base : Z) (s : string) : option Z :=
  match s with
  | EmptyString => None
  | _ => digitsVal base 0 s
  end.

(** [StringToBigInt]: white space trimmed at both ends, then nothing
    (zero), a [0x] / [0o] / [0b] literal, or a signed decimal. *)
Definition StringToBigInt (s : string) : option Z :=
  match trim s with
  | EmptyString => Some 0
  | String "0" (String "x" r) | String "0" (String "X" r) => literal 16 r
  | String "0" (String "o" r) | String "0" (String "O" r) => literal 8 r
  | String "0" (String "b" r) | String "0" (String "B" r) => literal 2 r
  | String "+" r => literal 10 r
  | String "-" r => option_map Z.opp (literal 10 r)
  | t => literal 10 t
  end.

(** [BigInt(s)] for a string [s]: a [SyntaxError] when [s] is no
    integer literal. *)
Definition BigInt (s : string) : res Z :=
  match StringToBigInt s with
  | Some z => Ok z
  | None => Raise (Error ("Cannot convert " ++ s ++ " to a BigInt"))
  end.

(** [Number(b)] for a non-negative BigInt [b] below 2^1024: the nearest
    double, ties to even.  Exact below 2^53. *)
Definition roundDouble (z : Z) : Z :=
  if z <? 2 ^ 53 then z
  else
    let e := Z.log2 z - 52 in
    let q := Z.shiftr z e in
    let r := z - Z.shiftl q e in
    let half := 2 ^ (e - 1) in
    let up := if r <? half then false
              else if half <? r then true
              else Z.odd q in
    Z.shiftl (if up then q + 1 else q) e.

Definition Number_of_BigInt (b : Z) : Z :=
  if b <? 0 then - roundDouble (- b) else roundDouble b.

(** [a + b] and [a * b] on Numbers that hold integers: the exact
    result, rounded. *)
Definition dadd (a b : Z) : Z := Number_of_BigInt (a + b).
Definition dmul (a b : Z) : Z := Number_of_BigInt (a * b).

(** [b.toString()] / [String(n)] for an integer: decimal digits. *)
Definition toString (z : Z) : string := NilZero.string_of_int (Z.to_int z).

End Js.

(** ** Event codec *)

Definition orEmpty (s : option string) : string :=
  match s with Some x => x | None => "" end.

(** [(x || "").startsWith("0x") ? x.slice(2) : (x || "")] *)
Definition strip0x (x : option string) : string :=
  if Js.startsWith (orEmpty x) "0x" then Js.sliceFrom (orEmpty x) 2
  else orEmpty x.

(** A word of [hex], read as [BigInt("0x" + hex.slice(a, b))]. *)
Definition wordAt (hex : string) (a b : Z) : res Z :=
  Js.BigInt ("0x" ++ Js.slice hex a b).

(** [extractBytesParamFromLogData(dataHex)]: the [bytes] value inside the
    ABI-encoded [data] of a log, [None] for [null]. *)
Definition extractBytesParamFromLogData (dataHex : option string)
  : res (option string) :=
  let hex := strip0x dataHex in
  if Js.len hex <? 128 then Ok None
  else
    res_bind (wordAt hex 0 64) (fun b0 =>
    res_bind (wordAt hex 64 128) (fun b1 =>
    let w0 := Js.Number_of_BigInt b0 in
    let w1 := Js.Number_of_BigInt b1 in
    let layoutA := w0 =? 32 in
    let lenPos := if layoutA then 64 else Js.dmul w1 2 in
    let bytesStart := if layoutA then 128 else Js.dadd lenPos 64 in
    if (negb layoutA && (Js.len hex <? Js.dadd lenPos 64))%bool then Ok None
    else
      res_bind (wordAt hex lenPos (Js.dadd lenPos 64)) (fun bl =>
      let len := Js.Number_of_BigInt bl in
      let end_ := Js.dadd bytesStart (Js.dmul len 2) in
      if Js.len hex <? end_ then Ok None
      else Ok (Some ("0x" ++ Js.slice hex bytesStart end_))))).

Record Decoded := mkDecoded { points : Z; week : Z }.

(** [decodePointsAndWeek(payloadHex)] *)
Definition decodePointsAndWeek (payloadHex : option string)
  : res (option Decoded) :=
  let hex := strip0x payloadHex in
  if ((hex =? "")%string || (Js.len hex <? 128))%bool then Ok None
  else
    res_bind (wordAt hex 0 64) (fun p =>
    res_bind (wordAt hex 64 128) (fun w =>
    Ok (Some (mkDecoded p w)))).

(** The two calls every merge loop makes on a log's [data]. *)
Definition decodeLogData (data : option string) : res (option Decoded) :=
  res_bind (extractBytesParamFromLogData data) decodePointsAndWeek.

(** [addrFromTopic(topic1)] *)
Definition addrFromTopic (topic1 : option string) : string :=
  let t := strip0x topic1 in
  Js.toLowerCase ("0x" ++ Js.sliceFrom t (Js.len t - 40)).

(** The reference encoding of a payload, as the contract emits it: the
    32-byte big-endian word of the points, then that of the week start. *)
Definition hexChar (d : Z) : ascii :=
  ascii_of_nat (Z.to_nat (if d <? 10 then 48 + d else 87 + d)).

Fixpoint hexDigits (n : nat) (z : Z) : string :=
  match n with
  | O => EmptyString
  | S k => hexDigits k (z / 16) ++ String (hexChar (z mod 16)) EmptyString
  end.

Definition word32 (z : Z) : string := hexDigits 64 z.

Definition encodePointsAndWeek (p w : Z) : string :=
  "0x" ++ word32 p ++ word32 w.



(** ** Arrays and Maps *)

Module JsArray.

(** [arr.slice(a, b)], with the relative indices of [Js.relIndex]. *)
Definition slice {A} (l : list A) (a b : Z) : list A :=
  let n := Z.of_nat (List.length l) in
  let from := Js.relIndex n a in
  let to := Js.relIndex n b in
  firstn (Z.to_nat (Z.max (to - from) 0)) (skipn (Z.to_nat from) l).

(** [arr.sort(cmp)]: a stable sort; [cmp x y <= 0] keeps [x] before [y].
    Written as the insertion sort that never moves an element past one
    it compares equal to. *)
Fixpoint insert {A} (cmp : A -> A -> Z) (x : A) (l : list A) : list A :=
  match l with
  | [] => [x]
  | y :: r => if cmp x y <=? 0 then x :: y :: r else y :: insert cmp x r
  end.

Definition sort {A} (cmp : A -> A -> Z) (l : list A) : list A :=
  fold_right (insert cmp) [] l.

End JsArray.

(** [Map<address, BigInt>]: the entries, in insertion order. *)
Definition JsMap := list (string * Z).

Module JsMap.

Fixpoint get {V} (m : list (string * V)) (k : string) : option V :=
  match m with
  | [] => None
  | (k', v) :: r => if (k' =? k)%string then Some v else get r k
  end.

(** [m.set(k, v)]: an existing key keeps its place, a new one goes last. *)
Fixpoint set {V} (m : list (string * V)) (k : string) (v : V)
  : list (string * V) :=
  match m with
  | [] => [(k, v)]
  | (k', v') :: r =>
      if (k' =? k)%string then (k', v) :: r else (k', v') :: set r k v
  end.

(** [new Map(entries)] *)
Definition ofEntries {V} (l : list (string * V)) : list (string * V) :=
  fold_left (fun m e => set m (fst e) (snd e)) l [].

Definition size {V} (m : list (string * V)) : Z := Z.of_nat (List.length m).

(** [[...new Set(l)]]: first occurrences, in order. *)
Definition uniq (l : list string) : list string :=
  List.map fst (ofEntries (List.map (fun a => (a, tt)) l)).

End JsMap.

(** ** Tunables *)

Definition STATE_SCHEMA_VERSION : Z := 4.
Definition CACHE_TTL_SECONDS : Z := 60 * 60.
Definition STATE_TTL_SECONDS : Z := 60 * 60 * 24 * 21.
Definition MAX_TOP : Z := 100.
Definition PRUNE_KEEP : Z := 250.
Definition MAX_SERVERLESS_MS : Z := 8500.

(** ** Ranking and pruning *)

(** The comparator of both sorts:
    [(a, b) => (b[1] > a[1] ? 1 : b[1] < a[1] ? -1 : 0)]. *)
Definition byPointsDesc (a b : string * Z) : Z :=
  if snd b >? snd a then 1 else if snd b <? snd a then -1 else 0.

(** [x] may stand before [y] in a ranking. *)
Definition ranksBefore (x y : string * Z) : Prop := snd y <= snd x.

(** [pruneToTop(map, keep)] *)
Definition pruneToTop (map : JsMap) (keep : Z) : JsMap :=
  let arr := JsArray.sort byPointsDesc map in
  JsMap.ofEntries (JsArray.slice arr 0 keep).

(** One row of a ranking: [{ address, points: points.toString() }]. *)
Record Row := mkRow { address : string; pointsText : string }.

(** [sortMapToArray(m)]; a missing map is [None]. *)
Definition sortMapToArray (m : option JsMap) : list Row :=
  match m with
  | None => []
  | Some m =>
      List.map (fun e => mkRow (fst e) (Js.toString (snd e)))
               (JsArray.sort byPointsDesc m)
  end.

(** ** Week buckets and the merge of decoded logs *)

Record WeekState := mkWeek { weekMs : Z; map : JsMap }.

Definition emptyWeekState (wk : Z) : WeekState := mkWeek wk [].

(** [weeks.find((x) => x.weekMs === wk)] *)
Definition findWeek (weeks : list WeekState) (wk : Z) : option WeekState :=
  List.find (fun x => weekMs x =? wk) weeks.

(** [getOrMakeWeekMap(state, wk)]: the weeks after the call (a bucket is
    pushed when none has this start) and the map it returns. *)
Definition getOrMakeWeekMap (weeks : list WeekState) (wk : Z)
  : list WeekState * JsMap :=
  match findWeek weeks wk with
  | Some w => (weeks, map w)
  | None => ((weeks ++ [emptyWeekState wk])%list, [])
  end.

(** The effect of [m.set(user, v)] on the weeks, for the map [m] that
    [getOrMakeWeekMap] returned: the first bucket that starts at [wk]. *)
Fixpoint setInWeek (weeks : list WeekState) (wk : Z) (user : string) (v : Z)
  : list WeekState :=
  match weeks with
  | [] => []
  | w :: r =>
      if weekMs w =? wk then mkWeek (weekMs w) (JsMap.set (map w) user v) :: r
      else w :: setInWeek r wk user v
  end.

(** [m.get(user) || 0n] *)
Definition getOr0 (m : JsMap) (user : string) : Z :=
  match JsMap.get m user with Some v => v | None => 0 end.

(** [const m = getOrMakeWeekMap(state, wk); m.set(user, (m.get(user) || 0n) + pts)] *)
Definition addPoints (weeks : list WeekState) (wk : Z) (user : string) (pts : Z)
  : list WeekState :=
  let '(weeks', m) := getOrMakeWeekMap weeks wk in
  setInWeek weeks' wk user (getOr0 m user + pts).

(** A log record, as far as the program reads it: [topics?.[1]] and [data]. *)
Record Log := mkLog { topic1 : option string; data : option string }.

(** The body of the merge loop of [backfillTwoWeeks] and of
    [incrementalUpdate], for one log. *)
Definition applyLog (curWeekMs prevWeekMs : Z) (weeks : list WeekState) (l : Log)
  : res (list WeekState) :=
  let user := addrFromTopic (topic1 l) in
  res_bind (extractBytesParamFromLogData (data l)) (fun payload =>
  res_bind (decodePointsAndWeek payload) (fun dec =>
  match dec with
  | None => Ok weeks
  | Some d =>
      let wk := Js.Number_of_BigInt (week d) in
      if (negb (wk =? curWeekMs) && negb (wk =? prevWeekMs))%bool then Ok weeks
      else Ok (addPoints weeks wk user (points d))
  end)).

(** [for (const l of logs) { ... }]: a throw leaves the loop. *)
Fixpoint applyLogs (curWeekMs prevWeekMs : Z) (weeks : list WeekState)
  (logs : list Log) : res (list WeekState) :=
  match logs with
  | [] => Ok weeks
  | l :: r =>
      res_bind (applyLog curWeekMs prevWeekMs weeks l)
               (fun weeks' => applyLogs curWeekMs prevWeekMs weeks' r)
  end.

(** ** Aggregation state *)

Record State := mkState {
  schemaVersion : Z;
  backfillFromBlock : option Z;
  anchorTsSec : Z;
  currentWeekMs : Z;
  lastWeekMs : Z;
  lastProcessedBlock : option Z;
  weeks : list WeekState;
  updatedAt : Z
}.

(** What [serializeState] returns and the store keeps: BigInts as decimal
    strings, maps as arrays of entries. *)
Record SerializedWeek := mkSerializedWeek {
  s_weekMs : Z;
  s_entries : list (string * string)
}.

Record SerializedState := mkSerialized {
  s_schemaVersion : Z;
  s_backfillFromBlock : option string;
  s_anchorTsSec : Z;
  s_currentWeekMs : Z;
  s_lastWeekMs : Z;
  s_lastProcessedBlock : option string;
  s_weeks : list SerializedWeek;
  s_updatedAt : Z
}.

(** Plain JavaScript values, for the response payload. *)
Inductive jsval :=
| JUndefined
| JNull
| JBool (b : bool)
| JNum (n : Z)
| JStr (s : string)
| JArr (items : list jsval)
| JObj (fields : list (string * jsval)).

Definition jsobj := list (string * jsval).

(** ** The outside world *)

(** JSON-RPC requests; block numbers go out as [toHex(n)]. *)
Inductive RpcMethod :=
| eth_blockNumber
| eth_getLogs (fromBlock toBlock : Z)
| eth_getBlockByNumber (blockNumber : Z).

(** [json.result] of a JSON-RPC answer. *)
Inductive RpcResult :=
| RLogs (logs : list Log)
| RText (s : string)
| RBlock (timestamp : option string)
| RNull.

(** What one [rpcCall] meets: [fetch], [res.text()] or [JSON.parse]
    throws; the HTTP status is not ok; the answer carries [error]
    (given as the text of [JSON.stringify(json.error)]); or a result. *)
Inductive RpcReply :=
| RpcFailed (e : JsError)
| RpcHttpError (status : Z) (text : string)
| RpcError (errorJson : string)
| RpcOk (result : RpcResult).

(** What the program reads of an explorer (BaseScan) answer [r], with
    [j = await r.json().catch(() => null)]: [r.ok], [r.status], whether
    [j] is falsy, [JSON.stringify(j || {})], [String(j?.status || "")],
    [String(j?.message || "")], and of the result
    [JSON.stringify(j?.result || "")], [String(j?.result || "")],
    [String(j.result)] and [Array.isArray(j?.result) ? j.result : []]. *)
Record ScanBody := mkScanBody {
  r_ok : bool;
  r_status : Z;
  j_falsy : bool;
  j_text : string;
  j_status : string;
  j_message : string;
  j_resultJson : string;
  j_resultOrEmpty : string;
  j_resultString : string;
  j_resultLogs : list Log
}.

Inductive ScanReply :=
| ScanFailed (e : JsError)
| ScanAnswer (b : ScanBody).

(** One user of the name service answer: [verified_addresses.eth_addresses[0]]
    (or the empty string) and [username]. *)
Inductive NamesReply :=
| NamesFailed (e : JsError)
| NamesAnswer (ok : bool) (users : list (string * option string)).

(** Values the program writes to the store. *)
Inductive Stored :=
| StoredState (s : SerializedState)
| StoredResp (o : jsobj)
| StoredText (s : string).

(** Options of [store.set]. *)
Record SetOpts := mkSetOpts { nx : bool; ex : option Z }.

(** Every interaction, with its outcome. *)
Inductive Event :=
| EvNow (t : Z)
| EvSleep (ms : Z)
| EvRpc (url : string) (m : RpcMethod) (r : RpcReply)
| EvScanLogs (fromBlock toBlock page : Z) (r : ScanReply)
| EvBlockByTime (timestamp : Z) (closest : string) (r : ScanReply)
| EvNames (addresses : list string) (r : NamesReply)
| EvStoreGet (key : string) (r : res (option Stored))
| EvStoreSet (key : string) (v : Stored) (opts : option SetOpts) (r : res bool)
| EvStoreDel (key : string) (r : res unit)
| EvSend (status : Z) (body : jsobj).

(** The process: the interactions so far (newest first) and the
    module-level variables of the in-memory fallback. *)
Record World := mkWorld {
  trace : list Event;
  MEM_STATE : option SerializedState;
  MEM_RESP : option jsobj;
  MEM_RESP_AT : Z
}.

(** The environment: configuration, and the outcome of each interaction
    given everything that happened before it.  The store answers a [get]
    with the value under the key once parsed, which for the state key is
    a persisted state and for the response key a payload, as written by
    the program. *)
Record Env := mkEnv {
  extraRpcs : list string;
  storeConfigured : bool;
  NEYNAR_API_KEY : option string;
  clock : list Event -> Z;
  rpc : list Event -> string -> RpcMethod -> RpcReply;
  scanLogs : list Event -> Z -> Z -> Z -> ScanReply;
  blockByTime : list Event -> Z -> string -> ScanReply;
  names : list Event -> list string -> NamesReply;
  storeGetState : list Event -> res (option SerializedState);
  storeGetResp : list Event -> res (option jsobj);
  storeSet : list Event -> string -> Stored -> option SetOpts -> res bool;
  storeDel : list Event -> string -> res unit
}.

(** ** The monad of effectful code *)

(** How an [async] function ends: it returns, it throws, or the model
    ran out of the fuel that bounds its loops. *)
Inductive Outcome (A : Type) : Type :=
| Ret (a : A)
| Throw (e : JsError)
| OutOfFuel.
Arguments Ret {A} a.
Arguments Throw {A} e.
Arguments OutOfFuel {A}.

Definition M (A : Type) : Type := World -> Outcome A * World.

Definition ret {A} (a : A) : M A := fun w => (Ret a, w).

Definition throw {A} (e : JsError) : M A := fun w => (Throw e, w).

Definition outOfFuel {A} : M A := fun w => (OutOfFuel, w).

Definition bind {A B} (m : M A) (k : A -> M B) : M B :=
  fun w =>
    match m w with
    | (Ret a, w') => k a w'
    | (Throw e, w') => (Throw e, w')
    | (OutOfFuel, w') => (OutOfFuel, w')
    end.

(** [try { m } catch (e) { h(e) }] *)
Definition try_catch {A} (m : M A) (h : JsError -> M A) : M A :=
  fun w =>
    match m w with
    | (Throw e, w') => h e w'
    | r => r
    end.

(** A throw of [m] turned into a value, for a [try] whose continuation
    lies outside of it. *)
Definition attempt {A} (m : M A) : M (res A) :=
  try_catch (bind m (fun a => ret (Ok a))) (fun e => ret (Raise e)).

(** A pure computation that may throw. *)
Definition lift {A} (r : res A) : M A :=
  match r with
  | Ok a => ret a
  | Raise e => throw e
  end.

Declare Scope monad_scope.
Delimit Scope monad_scope with monad.
Notation "x <- m ;; k" := (bind m (fun x => k))
  (at level 61, m at next level, right associativity) : monad_scope.
Notation "m ;; k" := (bind m (fun _ => k))
  (at level 61, right associativity) : monad_scope.
Open Scope monad_scope.

Definition record (ev : Event) (w : World) : World :=
  mkWorld (ev :: trace w) (MEM_STATE w) (MEM_RESP w) (MEM_RESP_AT w).

(** ** Clock, timers and JSON-RPC *)

Section Program.

Variable env : Env.

(** [nowMs()] *)
Definition nowMs : M Z :=
  fun w => let t := clock env (trace w) in (Ret t, record (EvNow t) w).

(** [await sleep(ms)] *)
Definition sleep (ms : Z) : M unit :=
  fun w => (Ret tt, record (EvSleep ms) w).

(** [(s || "").toLowerCase()] *)
Definition lower (s : option string) : string := Js.toLowerCase (orEmpty s).

(** [isRateLimitish(status, bodyText)] *)
Definition isRateLimitish (status : option Z) (bodyText : option string) : bool :=
  let t := lower bodyText in
  (match status with Some 429 => true | _ => false end
   || Js.includes t "rate limit"
   || Js.includes t "too many requests"
   || Js.includes t "over rate limit")%bool.

(** [rpcCall(url, method, params)] *)
Definition rpcCall (url : string) (method : RpcMethod) : M RpcResult :=
  fun w =>
    let r := rpc env (trace w) url method in
    let w' := record (EvRpc url method r) w in
    match r with
    | RpcFailed e => (Throw e, w')
    | RpcHttpError status text =>
        (Throw (mkError ("RPC HTTP " ++ Js.toString status ++ ": "
                           ++ Js.slice text 0 240)
                        (Some status) (Some text) None), w')
    | RpcError errorJson => (Throw (Error ("RPC error: " ++ errorJson)), w')
    | RpcOk result => (Ret result, w')
    end.

(** [RPCS]: the public endpoints, then those of the configuration. *)
Definition RPCS : list string :=
  (["https://mainnet.base.org"; "https://1rpc.io/base"; "https://base.llamarpc.com"]
     ++ extraRpcs env)%list.

(** Transient failures the program waits out:
    [isRateLimitish(...) || msg.includes("timeout") || msg.includes("fetch failed")]. *)
Definition isTransient (e : JsError) : bool :=
  let msg := Js.toLowerCase (message e) in
  (isRateLimitish (httpStatus e) (bodyText e)
   || Js.includes msg "timeout" || Js.includes msg "fetch failed")%bool.

(** The loop of [withRpcRotation]: [left] attempts remain, [attempt] have
    been made. *)
Fixpoint rotate {A} (fn : string -> M A) (urls : list string)
  (left : nat) (attempt_ : Z) (lastErr : option JsError) : M A :=
  match left with
  | O =>
      throw (match lastErr with
             | Some e => e
             | None => Error "RPC rotation failed"
             end)
  | S left' =>
      let url := nth (Z.to_nat (attempt_ mod Z.of_nat (List.length urls))) urls "" in
      r <- attempt (fn url) ;;
      match r with
      | Ok a => ret a
      | Raise e =>
          (if isTransient e then sleep (250 * (attempt_ + 1)) else sleep 60) ;;
          rotate fn urls left' (attempt_ + 1) (Some e)
      end
  end.

(** [withRpcRotation(fn)], with the default [tries = 6]. *)
Definition withRpcRotation {A} (fn : string -> M A) : M A :=
  let urls := match RPCS with [] => ["https://mainnet.base.org"] | l => l end in
  rotate fn urls 6 0 None.

(** ** Chain log source *)

(** [deadlineMs && nowMs() > deadlineMs]: the clock is read only when a
    deadline is set. *)
Definition pastDeadline (deadlineMs : Z) : M bool :=
  if deadlineMs =? 0 then ret false
  else (t <- nowMs ;; ret (deadlineMs <? t)).

(** [a || b || c] on strings. *)
Definition firstNonEmpty (a b c : string) : string :=
  if negb (a =? "")%string then a
  else if negb (b =? "")%string then b else c.

(** One page request of [fetchLogsViaBaseScan]. *)
Definition fetchScanPage (fromBlock toBlock page : Z) : M ScanBody :=
  fun w =>
    let r := scanLogs env (trace w) fromBlock toBlock page in
    let w' := record (EvScanLogs fromBlock toBlock page r) w in
    match r with
    | ScanFailed e => (Throw e, w')
    | ScanAnswer b => (Ret b, w')
    end.

Definition DEADLINE : JsError := mkError "deadline" None None (Some "DEADLINE").

(** The [while (true)] of [fetchLogsViaBaseScan]. *)
Fixpoint scanPages (fuel : nat) (fromBlock toBlock deadlineMs : Z)
  (page : Z) (out : list Log) : M (list Log) :=
  match fuel with
  | O => outOfFuel
  | S fuel' =>
      past <- pastDeadline deadlineMs ;;
      if past : bool then throw DEADLINE
      else
        b <- fetchScanPage fromBlock toBlock page ;;
        if negb (r_ok b) then
          let txt := Js.toLowerCase (j_text b) in
          if ((r_status b =? 429) || Js.includes txt "rate limit"
              || Js.includes txt "too many")%bool
          then sleep 250 ;; scanPages fuel' fromBlock toBlock deadlineMs page out
          else throw (Error ("BaseScan HTTP " ++ Js.toString (r_status b) ++ ": "
                               ++ (if j_falsy b then "" else Js.slice (j_text b) 0 240)))
        else if ((j_status b =? "0")%string
                 && Js.includes (Js.toLowerCase (j_message b)) "no records")%bool
        then ret out
        else if negb (j_status b =? "1")%string then
          let m := Js.toLowerCase (j_message b) in
          let resultText := Js.toLowerCase (j_resultJson b) in
          if (Js.includes m "rate" || Js.includes resultText "rate"
              || Js.includes resultText "too many")%bool
          then sleep 250 ;; scanPages fuel' fromBlock toBlock deadlineMs page out
          else throw (Error ("BaseScan error: "
                               ++ firstNonEmpty (j_message b) resultText "unknown"))
        else
          let logs := j_resultLogs b in
          let out' := (out ++ logs)%list in
          if Z.of_nat (List.length logs) <? 1000 then ret out'
          else sleep 120 ;;
               scanPages fuel' fromBlock toBlock deadlineMs (page + 1) out'
  end.

(** [fetchLogsViaBaseScan(fromBlock, toBlock, deadlineMs)] *)
Definition fetchLogsViaBaseScan (fuel : nat) (fromBlock toBlock deadlineMs : Z)
  : M (list Log) :=
  scanPages fuel fromBlock toBlock deadlineMs 1 [].

(** What [fetchLogsRange] returns. *)
Record Scan := mkScan {
  logs : list Log;
  lastScannedBlock : Z;
  complete : bool
}.

(** [Array.isArray(logs) && logs.length] guards the push. *)
Definition logsOf (r : RpcResult) : list Log :=
  match r with RLogs l => l | _ => [] end.

(** Permanent rejection of historical ranges: rethrown. *)
Definition isFreeTier (msg : string) : bool :=
  (Js.includes msg "freetier" || Js.includes msg "not supported on freetier"
   || Js.includes msg "ranges over 10000")%bool.

(** The provider says the range is too large. *)
Definition isRangeTooLarge (msg : string) : bool :=
  (Js.includes msg "range is too large" || Js.includes msg "m...1k"
   || Js.includes msg "limit" || Js.includes msg "block range")%bool.

(** [step = step / 2n; if (step < hardMinStep) step = hardMinStep] *)
Definition shrink (step hardMinStep : Z) : Z :=
  let s := Z.quot step 2 in if s <? hardMinStep then hardMinStep else s.

(** The [for] loop of [fetchLogsRange], at its head with the variables
    [from], [step], [logsOut] and [lastScanned]. *)
Fixpoint scanChunks (fuel : nat) (toBlock hardMinStep deadlineMs : Z)
  (from step : Z) (logsOut : list Log) (lastScanned : Z) : M Scan :=
  match fuel with
  | O => outOfFuel
  | S fuel' =>
      if toBlock <? from then ret (mkScan logsOut lastScanned true)
      else
        past <- pastDeadline deadlineMs ;;
        if past : bool then ret (mkScan logsOut lastScanned false)
        else
          let to := if toBlock <? from + step then toBlock else from + step in
          r <- attempt (withRpcRotation (fun url => rpcCall url (eth_getLogs from to))) ;;
          match r with
          | Ok result =>
              scanChunks fuel' toBlock hardMinStep deadlineMs
                         (to + 1) step (logsOut ++ logsOf result)%list to
          | Raise e =>
              let msg := Js.toLowerCase (message e) in
              if isFreeTier msg then throw e
              else if isRangeTooLarge msg then
                sleep 120 ;;
                scanChunks fuel' toBlock hardMinStep deadlineMs
                           from (shrink step hardMinStep) logsOut lastScanned
              else if isTransient e then
                sleep 250 ;;
                scanChunks fuel' toBlock hardMinStep deadlineMs
                           from step logsOut lastScanned
              else
                sleep 120 ;;
                scanChunks fuel' toBlock hardMinStep deadlineMs
                           from (shrink step hardMinStep) logsOut lastScanned
          end
  end.

(** [lastScanned = fromBlock > 0n ? (fromBlock - 1n) : 0n] *)
Definition blockBefore (fromBlock : Z) : Z :=
  if 0 <? fromBlock then fromBlock - 1 else 0.

(** [fetchLogsRange(fromBlock, toBlock, stepInitial, hardMinStep, deadlineMs)] *)
Definition fetchLogsRange (fuel : nat)
  (fromBlock toBlock stepInitial hardMinStep deadlineMs : Z) : M Scan :=
  scanChunks fuel toBlock hardMinStep deadlineMs
             fromBlock stepInitial [] (blockBefore fromBlock).

(** [BigInt(x)] for a JSON-RPC result [x]: a string is parsed, an empty
    array reads as the empty string, anything else is no integer. *)
Definition BigInt_of_result (r : RpcResult) : res Z :=
  match r with
  | RText s => Js.BigInt s
  | RLogs [] => Ok 0
  | RLogs _ => Raise (Error "Cannot convert [object Object] to a BigInt")
  | RBlock _ => Raise (Error "Cannot convert [object Object] to a BigInt")
  | RNull => Raise (Error "Cannot convert null to a BigInt")
  end.

(** [getLatestBlock()] *)
Definition getLatestBlock : M Z :=
  latestHex <- withRpcRotation (fun url => rpcCall url eth_blockNumber) ;;
  lift (BigInt_of_result latestHex).

(** ** Block-time resolver *)

(** [getBlockByTimeBaseScan(timestampSec, closest)] *)
Definition getBlockByTimeBaseScan (timestampSec : Z) (closest : string) : M Z :=
  fun w =>
    let ts := Z.max 0 timestampSec in
    let r := blockByTime env (trace w) ts closest in
    let w' := record (EvBlockByTime ts closest r) w in
    match r with
    | ScanFailed e => (Throw e, w')
    | ScanAnswer b =>
        if negb (r_ok b) then
          (Throw (Error ("BaseScan block-by-time HTTP " ++ Js.toString (r_status b))), w')
        else if negb (j_status b =? "1")%string then
          (Throw (Error ("BaseScan block-by-time error: "
                           ++ firstNonEmpty (j_message b) (j_resultOrEmpty b) "unknown")),
           w')
        else lift (Js.BigInt (j_resultString b)) w'
    end.

(** [getBlockTimestampSec(blockNumber)] *)
Definition getBlockTimestampSec (blockNumber : Z) : M Z :=
  b <- withRpcRotation (fun url => rpcCall url (eth_getBlockByNumber blockNumber)) ;;
  match b with
  | RBlock (Some ts) =>
      if (ts =? "")%string then throw (Error "eth_getBlockByNumber missing timestamp")
      else (t <- lift (Js.BigInt ts) ;; ret (Js.Number_of_BigInt t))
  | _ => throw (Error "eth_getBlockByNumber missing timestamp")
  end.

(** The binary search of [findFirstBlockAtOrAfterTsSec], at its head. *)
Fixpoint searchBlock (fuel : nat) (targetTsSec : Z) (lo hi ans : Z) : M Z :=
  match fuel with
  | O => outOfFuel
  | S fuel' =>
      if hi <? lo then ret ans
      else
        let mid := Z.quot (lo + hi) 2 in
        ts <- getBlockTimestampSec mid ;;
        if targetTsSec <=? ts then
          if mid =? 0 then ret mid
          else searchBlock fuel' targetTsSec lo (mid - 1) mid
        else searchBlock fuel' targetTsSec (mid + 1) hi ans
  end.

(** [findFirstBlockAtOrAfterTsSec(targetTsSec, latestBlock)] *)
Definition findFirstBlockAtOrAfterTsSec (fuel : nat) (targetTsSec latestBlock : Z)
  : M Z :=
  searchBlock fuel targetTsSec 0 latestBlock latestBlock.

(** ** Aggregation state machine *)

Definition DAY_MS : Z := 24 * 60 * 60 * 1000.
Definition WEEK_MS : Z := 7 * 24 * 60 * 60 * 1000.

(** [weekStartUtcMs(now)]: the Monday 00:00:00 UTC at or before [now].
    [Date] computes with day numbers: the day of [now] is
    [floor(now / msPerDay)], its week day [(day + 4) mod 7] (day 0 was a
    Thursday), and [Date.UTC(y, m, d - k)] is the midnight [k] days
    before the midnight of [now]'s day. *)
Definition weekStartUtcMs (now : Z) : Z :=
  let dayNumber := now / DAY_MS in
  let day := (dayNumber + 4) mod 7 in
  let diffToMon := (day + 6) mod 7 in
  (dayNumber - diffToMon) * DAY_MS.

(** Truthiness of a BigInt that may be [null]. *)
Definition truthyBlock (b : option Z) : bool :=
  match b with
  | Some z => negb (z =? 0)
  | None => false
  end.

(** [for (const w of state.weeks) w.map = pruneToTop(w.map, PRUNE_KEEP)] *)
Definition pruneWeeks (ws : list WeekState) : list WeekState :=
  List.map (fun w => mkWeek (weekMs w) (pruneToTop (map w) PRUNE_KEEP)) ws.

(** The start block of a backfill: the explorer's block at the anchor
    time; failing that the binary search, less a buffer of 2000 blocks;
    failing that a window of 1500000 blocks. *)
Definition resolveFromBlock (fuel : nat) (anchorTsSec latest : Z) : M Z :=
  try_catch (getBlockByTimeBaseScan anchorTsSec "before")
    (fun _ =>
       try_catch
         (fromBlock <- findFirstBlockAtOrAfterTsSec fuel anchorTsSec latest ;;
          ret (if 2000 <? fromBlock then fromBlock - 2000 else fromBlock))
         (fun _ =>
            let WINDOW := 1500000 in
            ret (if WINDOW <? latest then latest - WINDOW else 0))).

(** [backfillTwoWeeks(now, deadlineMs)] *)
Definition backfillTwoWeeks (fuel : nat) (now deadlineMs : Z) : M State :=
  let curWeekMs := weekStartUtcMs now in
  let prevWeekMs := curWeekMs - WEEK_MS in
  latest <- getLatestBlock ;;
  let anchorTsSec := prevWeekMs / 1000 - 3600 in
  fromBlock <- resolveFromBlock fuel anchorTsSec latest ;;
  created <- nowMs ;;
  let weeks0 := [emptyWeekState curWeekMs; emptyWeekState prevWeekMs] in
  r <- try_catch
         (logs <- fetchLogsViaBaseScan fuel fromBlock latest deadlineMs ;;
          ret (mkScan logs latest true))
         (fun _ => fetchLogsRange fuel fromBlock latest 8000 900 deadlineMs) ;;
  weeks1 <- lift (applyLogs curWeekMs prevWeekMs weeks0 (logs r)) ;;
  updated <- nowMs ;;
  ret (mkState STATE_SCHEMA_VERSION (Some fromBlock) anchorTsSec
               curWeekMs prevWeekMs
               (Some (if complete r then latest else lastScannedBlock r))
               (pruneWeeks weeks1) updated).

(** [state.weeks.filter(...).map(...)] at the end of [incrementalUpdate]. *)
Definition keepAndPrune (curWeekMs prevWeekMs : Z) (ws : list WeekState)
  : list WeekState :=
  pruneWeeks
    (List.filter (fun w => ((weekMs w =? curWeekMs) || (weekMs w =? prevWeekMs))%bool) ws).

(** [incrementalUpdate(existingState, deadlineMs)] *)
Definition incrementalUpdate (fuel : nat) (existingState : option State)
  (deadlineMs : Z) : M State :=
  now <- nowMs ;;
  let curWeekMs := weekStartUtcMs now in
  let prevWeekMs := curWeekMs - WEEK_MS in
  latest <- getLatestBlock ;;
  match existingState with
  | None => backfillTwoWeeks fuel now deadlineMs
  | Some st =>
      if (negb (truthyBlock (lastProcessedBlock st))
          || negb (currentWeekMs st =? curWeekMs)
          || (schemaVersion st <? STATE_SCHEMA_VERSION))%bool
      then backfillTwoWeeks fuel now deadlineMs
      else
        let from := match lastProcessedBlock st with Some b => b | None => 0 end + 1 in
        if latest <? from then
          updated <- nowMs ;;
          ret (mkState (schemaVersion st) (backfillFromBlock st) (anchorTsSec st)
                       curWeekMs prevWeekMs (lastProcessedBlock st) (weeks st) updated)
        else
          r <- try_catch
                 (fetchLogsRange fuel from latest 8000 900 deadlineMs)
                 (fun _ =>
                    logs <- fetchLogsViaBaseScan fuel from latest deadlineMs ;;
                    ret (mkScan logs latest true)) ;;
          weeks1 <- lift (applyLogs curWeekMs prevWeekMs (weeks st) (logs r)) ;;
          updated <- nowMs ;;
          ret (mkState (schemaVersion st) (backfillFromBlock st) (anchorTsSec st)
                       curWeekMs prevWeekMs
                       (Some (if complete r then latest else lastScannedBlock r))
                       (keepAndPrune curWeekMs prevWeekMs weeks1) updated)
  end.

(** ** Persistence adapter *)

Definition KV_PREFIX : string := "lanerunner:lb:v3".
Definition KV_STATE_KEY : string := KV_PREFIX ++ ":state".
Definition KV_RESP_KEY : string := KV_PREFIX ++ ":resp".
Definition KV_LOCK_KEY : string := KV_PREFIX ++ ":lock".

(** [storeGetJson(KV_STATE_KEY)] *)
Definition storeGetJson_state : M (option SerializedState) :=
  fun w =>
    if negb (storeConfigured env) then (Ret (MEM_STATE w), w)
    else
      let r := storeGetState env (trace w) in
      let w' := record (EvStoreGet KV_STATE_KEY
                          (res_bind r (fun v => Ok (option_map StoredState v)))) w in
      match r with
      | Ok v => (Ret v, w')
      | Raise e => (Throw e, w')
      end.

(** [storeGetJson(KV_RESP_KEY)] *)
Definition storeGetJson_resp : M (option jsobj) :=
  fun w =>
    if negb (storeConfigured env) then (Ret (MEM_RESP w), w)
    else
      let r := storeGetResp env (trace w) in
      let w' := record (EvStoreGet KV_RESP_KEY
                          (res_bind r (fun v => Ok (option_map StoredResp v)))) w in
      match r with
      | Ok v => (Ret v, w')
      | Raise e => (Throw e, w')
      end.

(** [await store.set(key, payload, opts)] *)
Definition store_set (key : string) (v : Stored) (opts : option SetOpts) : M bool :=
  fun w =>
    let r := storeSet env (trace w) key v opts in
    let w' := record (EvStoreSet key v opts r) w in
    match r with
    | Ok ok => (Ret ok, w')
    | Raise e => (Throw e, w')
    end.

(** [await store.del(key)] *)
Definition store_del (key : string) : M unit :=
  fun w =>
    let r := storeDel env (trace w) key in
    let w' := record (EvStoreDel key r) w in
    match r with
    | Ok _ => (Ret tt, w')
    | Raise e => (Throw e, w')
    end.

Definition exOpts (exSeconds : Z) : option SetOpts :=
  if exSeconds =? 0 then None else Some (mkSetOpts false (Some exSeconds)).

(** [storeSetJson(KV_STATE_KEY, value, exSeconds)] *)
Definition storeSetJson_state (value : SerializedState) (exSeconds : Z) : M bool :=
  if negb (storeConfigured env) then
    fun w => (Ret true, mkWorld (trace w) (Some value) (MEM_RESP w) (MEM_RESP_AT w))
  else (store_set KV_STATE_KEY (StoredState value) (exOpts exSeconds) ;; ret true).

(** [storeSetJson(KV_RESP_KEY, value, exSeconds)] *)
Definition storeSetJson_resp (value : jsobj) (exSeconds : Z) : M bool :=
  if negb (storeConfigured env) then
    (fun w => (Ret tt, mkWorld (trace w) (MEM_STATE w) (Some value) (MEM_RESP_AT w))) ;;
    t <- nowMs ;;
    (fun w => (Ret true, mkWorld (trace w) (MEM_STATE w) (MEM_RESP w) t))
  else (store_set KV_RESP_KEY (StoredResp value) (exOpts exSeconds) ;; ret true).

(** [storeAcquireLock(lockKey, ttlSeconds)] *)
Definition storeAcquireLock (lockKey : string) (ttlSeconds : Z) : M bool :=
  if negb (storeConfigured env) then ret true
  else try_catch
         (store_set lockKey (StoredText "1") (Some (mkSetOpts true (Some ttlSeconds))))
         (fun _ => ret true).

(** [storeReleaseLock(lockKey)] *)
Definition storeReleaseLock (lockKey : string) : M unit :=
  if negb (storeConfigured env) then ret tt
  else try_catch (store_del lockKey) (fun _ => ret tt).

(** [getCachedResponse()] *)
Definition getCachedResponse : M (option jsobj) :=
  v <- storeGetJson_resp ;;
  if negb (storeConfigured env) then
    match v with
    | None => ret None
    | Some _ =>
        t <- nowMs ;;
        fun w =>
          let age := t - MEM_RESP_AT w in
          (Ret (if CACHE_TTL_SECONDS * 1000 <? age then None else v), w)
    end
  else ret v.

(** [setCachedResponse(resp)] *)
Definition setCachedResponse (resp : jsobj) : M unit :=
  storeSetJson_resp resp CACHE_TTL_SECONDS ;; ret tt.

(** ** Serialization of the state *)

(** [x ? BigInt(x) : null] for a decimal string that may be [null]. *)
Definition bigintOrNull (x : option string) : res (option Z) :=
  match x with
  | None => Ok None
  | Some t => if (t =? "")%string then Ok None
              else res_bind (Js.BigInt t) (fun z => Ok (Some z))
  end.

(** [for (const [addr, pts] of w.entries) m.set(String(addr).toLowerCase(), BigInt(pts))] *)
Fixpoint readEntries (entries : list (string * string)) (m : JsMap) : res JsMap :=
  match entries with
  | [] => Ok m
  | (addr, pts) :: r =>
      res_bind (Js.BigInt pts) (fun z =>
      readEntries r (JsMap.set m (Js.toLowerCase addr) z))
  end.

(** The loop over [[weekA, weekB]]: a week without [weekMs] is skipped. *)
Fixpoint readWeeks (ws : list SerializedWeek) : res (list WeekState) :=
  match ws with
  | [] => Ok []
  | w :: r =>
      if s_weekMs w =? 0 then readWeeks r
      else
        res_bind (readEntries (s_entries w) []) (fun m =>
        res_bind (readWeeks r) (fun rest =>
        Ok (mkWeek (s_weekMs w) m :: rest)))
  end.

(** [deserializeState(s)]: [null] for no state and whenever reading throws. *)
Definition deserializeState (s : option SerializedState) : option State :=
  match s with
  | None => None
  | Some s =>
      match
        res_bind (readWeeks (firstn 2 (s_weeks s))) (fun weeks =>
        res_bind (bigintOrNull (s_backfillFromBlock s)) (fun bf =>
        res_bind (bigintOrNull (s_lastProcessedBlock s)) (fun lp =>
        Ok (mkState (s_schemaVersion s) bf (s_anchorTsSec s) (s_currentWeekMs s)
                    (s_lastWeekMs s) lp weeks (s_updatedAt s)))))
      with
      | Ok st => Some st
      | Raise _ => None
      end
  end.

(** [b ? b.toString() : null] *)
Definition blockText (b : option Z) : option string :=
  if truthyBlock b then option_map Js.toString b else None.

(** [serializeState(state)] *)
Definition serializeState (state : State) : SerializedState :=
  mkSerialized
    (if schemaVersion state =? 0 then STATE_SCHEMA_VERSION else schemaVersion state)
    (blockText (backfillFromBlock state))
    (anchorTsSec state)
    (currentWeekMs state)
    (lastWeekMs state)
    (blockText (lastProcessedBlock state))
    (List.map (fun w => mkSerializedWeek (weekMs w)
                 (List.map (fun e => (fst e, Js.toString (snd e))) (map w)))
              (weeks state))
    (updatedAt state).

(** ** Response formatter *)

Definition rowObject (r : Row) : jsobj :=
  [("address", JStr (address r)); ("points", JStr (pointsText r))].

(** [enrich(arr)] *)
Definition enrich (includeNames : bool) (fcMap : option (list (string * string)))
  (arr : list Row) : list jsval :=
  List.map
    (fun it =>
       match fcMap with
       | Some fc =>
           if includeNames then
             JObj (rowObject it ++
                   [("name",
                     match JsMap.get fc (Js.toLowerCase (address it)) with
                     | Some u => if (u =? "")%string then JUndefined
                                 else JStr (u ++ ".farcaster.eth")
                     | None => JUndefined
                     end)])%list
           else JObj (rowObject it)
       | None => JObj (rowObject it)
       end)
    arr.

Definition optText (x : option string) : jsval :=
  match x with Some t => JStr t | None => JNull end.

(** [meta] of the payload. *)
Definition responseMeta (state : State) (curMap prevMap : JsMap) : jsobj :=
  [("schemaVersion",
    JNum (if schemaVersion state =? 0 then STATE_SCHEMA_VERSION else schemaVersion state));
   ("weeklyUsers", JNum (JsMap.size curMap));
   ("lastWeekUsers", JNum (JsMap.size prevMap));
   ("lastProcessedBlock", optText (blockText (lastProcessedBlock state)));
   ("updatedAt", JNum (updatedAt state))].

(** [state.weeks.find((x) => x.weekMs === wk)?.map || new Map()] *)
Definition weekMapOrEmpty (ws : list WeekState) (wk : Z) : JsMap :=
  match findWeek ws wk with Some w => map w | None => [] end.

(** [formatResponsePayload(state, { includeNames, fcMap })] *)
Definition formatResponsePayload (state : State) (includeNames : bool)
  (fcMap : option (list (string * string))) : jsobj :=
  let curMap := weekMapOrEmpty (weeks state) (currentWeekMs state) in
  let prevMap := weekMapOrEmpty (weeks state) (lastWeekMs state) in
  let weekly := JsArray.slice (sortMapToArray (Some curMap)) 0 MAX_TOP in
  let lastWeek := JsArray.slice (sortMapToArray (Some prevMap)) 0 MAX_TOP in
  [("ok", JBool true);
   ("weekStart", JNum (currentWeekMs state));
   ("prevWeekStart", JNum (lastWeekMs state));
   ("weekly", JArr (enrich includeNames fcMap weekly));
   ("lastWeek", JArr (enrich includeNames fcMap lastWeek));
   ("meta", JObj (responseMeta state curMap prevMap))].

(** ** Names (optional) *)

(** One request of [fetchNamesFromNeynar]: [None] when [res.ok] is false. *)
Definition fetchNamesChunk (chunk : list string)
  : M (option (list (string * option string))) :=
  fun w =>
    let r := names env (trace w) chunk in
    let w' := record (EvNames chunk r) w in
    match r with
    | NamesFailed e => (Throw e, w')
    | NamesAnswer ok users => (Ret (if ok then Some users else None), w')
    end.

(** [for (const u of users) { ... if (addr && uname) out.set(addr, uname) }] *)
Definition addUsers (out : list (string * string))
  (users : list (string * option string)) : list (string * string) :=
  fold_left
    (fun out u =>
       let addr := Js.toLowerCase (fst u) in
       match snd u with
       | Some uname =>
           if (negb (addr =? "")%string && negb (uname =? "")%string)%bool
           then JsMap.set out addr uname else out
       | None => out
       end)
    users out.

(** The loop [for (let i = 0; i < uniq.length; i += chunkSize)]; [n]
    bounds the number of chunks. *)
Fixpoint namesChunks (n : nat) (uniq : list string) (i : Z)
  (out : list (string * string)) : M (list (string * string)) :=
  match n with
  | O => ret out
  | S n' =>
      if i <? Z.of_nat (List.length uniq) then
        r <- fetchNamesChunk (JsArray.slice uniq i (i + 200)) ;;
        namesChunks n' uniq (i + 200)
                    (match r with Some users => addUsers out users | None => out end)
      else ret out
  end.

(** [fetchNamesFromNeynar(addresses)] *)
Definition fetchNamesFromNeynar (addresses : list string)
  : M (list (string * string)) :=
  match NEYNAR_API_KEY env with
  | None => ret []
  | Some key =>
      if (key =? "")%string then ret []
      else
        let uniq :=
          List.filter (fun a => negb (a =? "")%string)
                      (JsMap.uniq (List.map Js.toLowerCase addresses)) in
        namesChunks (List.length uniq) uniq 0 []
  end.

(** ** Request orchestrator *)

(** [req.query], as far as it is read. *)
Record Request := mkRequest { q_refresh : option string; q_names : option string }.

(** [String(x || "0") === "1"] *)
Definition isOne (x : option string) : bool :=
  match x with Some t => (t =? "1")%string | None => false end.

Record Response := mkResponse { status : Z; body : jsobj }.

(** [res.status(status).send(JSON.stringify(body))] *)
Definition send (status : Z) (body : jsobj) : M Response :=
  fun w => (Ret (mkResponse status body), record (EvSend status body) w).

Definition HINT : string :=
  "If this persists: (1) Connect your Upstash Redis to the Vercel project so KV_REST_API_* env vars are present, (2) set RPC_URL to a full-history Base RPC (Alchemy/Ankr/QuickNode or mainnet.base.org), and (3) optionally set BASESCAN_API_KEY to use BaseScan Logs API for backfills.".

(** [e?.message || String(e)]; an error without message prints as its name. *)
Definition errorText (e : JsError) : string :=
  if (message e =? "")%string then "Error" else message e.

(** The error envelope. *)
Definition errorBody (e : JsError) : jsobj :=
  [("ok", JBool false); ("error", JStr (errorText e)); ("hint", JStr HINT)].

(** [{ ...cached, meta: { ...cached.meta, busy: true } }] *)
Definition withField (o : jsobj) (k : string) (v : jsval) : jsobj := JsMap.set o k v.

Definition markBusy (cached : jsobj) : jsobj :=
  let meta := match JsMap.get cached "meta" with
              | Some (JObj m) => m
              | _ => []
              end in
  withField cached "meta" (JObj (withField meta "busy" (JBool true))).

(** The keys of all week maps, as [addrs] collects them. *)
Definition allAddresses (ws : list WeekState) : list string :=
  JsMap.uniq (List.concat (List.map (fun w => List.map fst (map w)) ws)).

(** The part of the [try] block after the cache and the lock. *)
Definition refreshAndRespond (fuel : nat) (includeNames : bool) (deadlineMs : Z)
  : M Response :=
  rawState <- storeGetJson_state ;;
  let state := deserializeState rawState in
  updated <- incrementalUpdate fuel state deadlineMs ;;
  inTime <- (if includeNames then (t <- nowMs ;; ret (t <? deadlineMs - 500))
             else ret false) ;;
  fcMap <- (if inTime : bool
            then (m <- fetchNamesFromNeynar (allAddresses (weeks updated)) ;; ret (Some m))
            else ret None) ;;
  let resp := formatResponsePayload updated includeNames fcMap in
  storeSetJson_state (serializeState updated) STATE_TTL_SECONDS ;;
  setCachedResponse resp ;;
  storeReleaseLock KV_LOCK_KEY ;;
  send 200 resp.

(** The [try] block of the handler. *)
Definition handlerBody (fuel : nat) (refresh includeNames : bool) (deadlineMs : Z)
  : M Response :=
  cached <- (if refresh then ret None else getCachedResponse) ;;
  match cached with
  | Some c => send 200 c
  | None =>
      gotLock <- storeAcquireLock KV_LOCK_KEY 30 ;;
      cached2 <- (if (negb gotLock && negb refresh)%bool
                  then getCachedResponse else ret None) ;;
      match cached2 with
      | Some c => send 200 (markBusy c)
      | None => refreshAndRespond fuel includeNames deadlineMs
      end
  end.

(** [handler(req, res)] *)
Definition handler (fuel : nat) (req : Request) : M Response :=
  started <- nowMs ;;
  let deadlineMs := started + MAX_SERVERLESS_MS in
  let refresh := isOne (q_refresh req) in
  let includeNames := isOne (q_names req) in
  try_catch (handlerBody fuel refresh includeNames deadlineMs)
    (fun e =>
       try_catch (storeReleaseLock KV_LOCK_KEY) (fun _ => ret tt) ;;
       send 200 (errorBody e)).

End Program.

(** ** The revision with week rollover

    The repository carries a second revision of the same function
    (among the unnamed sources, [part_001]): its state has no schema
    version, its scans report no progress, and its [incrementalUpdate]
    rotates the buckets when the week advances by one.  What differs from
    [api/leaderboard.js] is embedded here; the codec, the merge loop,
    [rpcCall], [withRpcRotation] and [getLatestBlock] are the same. *)

Module Rollover.

Section Program.

Variable env : Env.

Definition PRUNE_KEEP : Z := 5000.

Record State := mkState {
  currentWeekMs : Z;
  lastWeekMs : Z;
  lastProcessedBlock : option Z;
  weeks : list WeekState;
  updatedAt : Z
}.

(** [fetchLogsViaBaseScan]: past the deadline the loop is left with the
    pages read so far. *)
Fixpoint scanPages (fuel : nat) (fromBlock toBlock deadlineMs : Z)
  (page : Z) (out : list Log) : M (list Log) :=
  match fuel with
  | O => outOfFuel
  | S fuel' =>
      past <- pastDeadline env deadlineMs ;;
      if past : bool then ret out
      else
        b <- fetchScanPage env fromBlock toBlock page ;;
        if negb (r_ok b) then
          let txt := Js.toLowerCase (j_text b) in
          if ((r_status b =? 429) || Js.includes txt "rate limit"
              || Js.includes txt "too many")%bool
          then sleep 250 ;; scanPages fuel' fromBlock toBlock deadlineMs page out
          else throw (Error ("BaseScan HTTP " ++ Js.toString (r_status b) ++ ": "
                               ++ (if j_falsy b then "" else Js.slice (j_text b) 0 240)))
        else if ((j_status b =? "0")%string
                 && Js.includes (Js.toLowerCase (j_message b)) "no records")%bool
        then ret out
        else if negb (j_status b =? "1")%string then
          let m := Js.toLowerCase (j_message b) in
          let resultText := Js.toLowerCase (j_resultJson b) in
          if (Js.includes m "rate" || Js.includes resultText "rate"
              || Js.includes resultText "too many")%bool
          then sleep 250 ;; scanPages fuel' fromBlock toBlock deadlineMs page out
          else throw (Error ("BaseScan error: "
                               ++ firstNonEmpty (j_message b) resultText "unknown"))
        else
          let logs := j_resultLogs b in
          let out' := (out ++ logs)%list in
          if Z.of_nat (List.length logs) <? 1000 then ret out'
          else sleep 120 ;;
               scanPages fuel' fromBlock toBlock deadlineMs (page + 1) out'
  end.

Definition fetchLogsViaBaseScan (fuel : nat) (fromBlock toBlock deadlineMs : Z)
  : M (list Log) :=
  scanPages fuel fromBlock toBlock deadlineMs 1 [].

Definition isRangeTooLarge (msg : string) : bool :=
  (Js.includes msg "range is too large" || Js.includes msg "max is 1k"
   || Js.includes msg "limit" || Js.includes msg "block range")%bool.

(** [fetchLogsRange]: the logs only. *)
Fixpoint scanChunks (fuel : nat) (toBlock hardMinStep deadlineMs : Z)
  (from step : Z) (logsOut : list Log) : M (list Log) :=
  match fuel with
  | O => outOfFuel
  | S fuel' =>
      if toBlock <? from then ret logsOut
      else
        past <- pastDeadline env deadlineMs ;;
        if past : bool then ret logsOut
        else
          let to := if toBlock <? from + step then toBlock else from + step in
          r <- attempt (withRpcRotation env
                          (fun url => rpcCall env url (eth_getLogs from to))) ;;
          match r with
          | Ok result =>
              scanChunks fuel' toBlock hardMinStep deadlineMs
                         (to + 1) step (logsOut ++ logsOf result)%list
          | Raise e =>
              let msg := Js.toLowerCase (message e) in
              if isFreeTier msg then throw e
              else if isRangeTooLarge msg then
                sleep 120 ;;
                scanChunks fuel' toBlock hardMinStep deadlineMs
                           from (shrink step hardMinStep) logsOut
              else if isTransient e then
                sleep 250 ;;
                scanChunks fuel' toBlock hardMinStep deadlineMs from step logsOut
              else
                sleep 120 ;;
                scanChunks fuel' toBlock hardMinStep deadlineMs
                           from (shrink step hardMinStep) logsOut
          end
  end.

Definition fetchLogsRange (fuel : nat)
  (fromBlock toBlock stepInitial hardMinStep deadlineMs : Z) : M (list Log) :=
  scanChunks fuel toBlock hardMinStep deadlineMs fromBlock stepInitial [].

Definition pruneWeeks (ws : list WeekState) : list WeekState :=
  List.map (fun w => mkWeek (weekMs w) (pruneToTop (map w) PRUNE_KEEP)) ws.

(** [backfillTwoWeeks(now, deadlineMs)]: a fixed window of blocks. *)
Definition backfillTwoWeeks (fuel : nat) (now deadlineMs : Z) : M State :=
  let curWeekMs := weekStartUtcMs now in
  let prevWeekMs := curWeekMs - WEEK_MS in
  latest <- getLatestBlock env ;;
  let WINDOW := 1200000 in
  let fromBlock := if WINDOW <? latest then latest - WINDOW else 0 in
  created <- nowMs env ;;
  let weeks0 := [emptyWeekState curWeekMs; emptyWeekState prevWeekMs] in
  logs <- try_catch (fetchLogsViaBaseScan fuel fromBlock latest deadlineMs)
            (fun _ => fetchLogsRange fuel fromBlock latest 8000 900 deadlineMs) ;;
  weeks1 <- lift (applyLogs curWeekMs prevWeekMs weeks0 logs) ;;
  updated <- nowMs env ;;
  ret (mkState curWeekMs prevWeekMs (Some latest) (pruneWeeks weeks1) updated).

(** The rollover snapshot: the old current map becomes the previous
    week's, under a fresh current week; the cursor stays. *)
Definition rolloverSnapshot (st : State) (curWeekMs prevWeekMs : Z) : State :=
  let oldCurrentMap := snd (getOrMakeWeekMap (weeks st) (currentWeekMs st)) in
  mkState curWeekMs prevWeekMs (lastProcessedBlock st)
          [mkWeek curWeekMs []; mkWeek prevWeekMs oldCurrentMap]
          (updatedAt st).

(** [incrementalUpdate] from [const from = state.lastProcessedBlock + 1n] on. *)
Definition catchUp (fuel : nat) (st : State) (latest deadlineMs : Z) : M State :=
  let curWeekMs := currentWeekMs st in
  let prevWeekMs := lastWeekMs st in
  let from := match lastProcessedBlock st with Some b => b | None => 0 end + 1 in
  if latest <? from then
    updated <- nowMs env ;;
    ret (mkState curWeekMs prevWeekMs (lastProcessedBlock st) (weeks st) updated)
  else
    logs <- try_catch (fetchLogsRange fuel from latest 8000 900 deadlineMs)
              (fun _ => fetchLogsViaBaseScan fuel from latest deadlineMs) ;;
    weeks1 <- lift (applyLogs curWeekMs prevWeekMs (weeks st) logs) ;;
    updated <- nowMs env ;;
    ret (mkState curWeekMs prevWeekMs (Some latest)
           (pruneWeeks
              (List.filter (fun w => ((weekMs w =? curWeekMs)
                                      || (weekMs w =? prevWeekMs))%bool) weeks1))
           updated).

(** [incrementalUpdate(existingState, deadlineMs)] *)
Definition incrementalUpdate (fuel : nat) (existingState : option State)
  (deadlineMs : Z) : M State :=
  now <- nowMs env ;;
  let curWeekMs := weekStartUtcMs now in
  let prevWeekMs := curWeekMs - WEEK_MS in
  latest <- getLatestBlock env ;;
  match existingState with
  | None => backfillTwoWeeks fuel now deadlineMs
  | Some st =>
      if negb (truthyBlock (lastProcessedBlock st))
      then backfillTwoWeeks fuel now deadlineMs
      else if negb (currentWeekMs st =? curWeekMs) then
        if negb (currentWeekMs st =? prevWeekMs)
        then backfillTwoWeeks fuel now deadlineMs
        else catchUp fuel (rolloverSnapshot st curWeekMs prevWeekMs) latest deadlineMs
      else
        catchUp fuel (mkState curWeekMs prevWeekMs (lastProcessedBlock st)
                              (weeks st) (updatedAt st))
                latest deadlineMs
  end.

End Program.

End Rollover.

(** ** The revision with a cursor per bucket

    A third revision of the file (among the unnamed sources, [part_002],
    schema version 5) keeps block bounds, a cursor and a completeness flag
    for each of the two weeks.  Its state and the metadata of its payload
    are embedded here. *)

Module Cursors.

Definition STATE_SCHEMA_VERSION : Z := 5.

Record State := mkState {
  schemaVersion : Z;
  currentWeekMs : Z;
  lastWeekMs : Z;
  prevWeekFromBlock : option Z;
  prevWeekToBlock : option Z;
  curWeekFromBlock : option Z;
  prevWeekProcessedBlock : option Z;
  curWeekProcessedBlock : option Z;
  latestBlock : option Z;
  completePrevWeek : bool;
  completeCurWeek : bool;
  weeks : list WeekState;
  updatedAt : Z
}.

(** [meta] of [formatResponsePayload]; [storeKind] is [store.kind] when a
    store is configured. *)
Definition responseMeta (state : State) (curMap prevMap : JsMap)
  (storeKind : option string) : jsobj :=
  [("schemaVersion",
    JNum (if schemaVersion state =? 0 then STATE_SCHEMA_VERSION else schemaVersion state));
   ("weeklyUsers", JNum (JsMap.size curMap));
   ("lastWeekUsers", JNum (JsMap.size prevMap));
   ("latestBlock", optText (blockText (latestBlock state)));
   ("curWeekFromBlock", optText (blockText (curWeekFromBlock state)));
   ("prevWeekFromBlock", optText (blockText (prevWeekFromBlock state)));
   ("prevWeekToBlock", optText (blockText (prevWeekToBlock state)));
   ("curWeekProcessedBlock", optText (blockText (curWeekProcessedBlock state)));
   ("prevWeekProcessedBlock", optText (blockText (prevWeekProcessedBlock state)));
   ("completeCurWeek", JBool (completeCurWeek state));
   ("completePrevWeek", JBool (completePrevWeek state));
   ("complete", JBool (completeCurWeek state && completePrevWeek state));
   ("store", JStr (match storeKind with
                   | Some k => if (k =? "")%string then "kv" else k
                   | None => "memory"
                   end));
   ("updatedAt", JNum (updatedAt state))].

End Cursors.

(** ** Statements of the specification *)

(** Metadata with a completeness flag per bucket: two boolean entries
    under keys of their own. *)
Definition hasPerBucketFlags (meta : jsobj) : Prop :=
  exists kCur kPrev bCur bPrev,
    kCur <> kPrev
    /\ JsMap.get meta kCur = Some (JBool bCur)
    /\ JsMap.get meta kPrev = Some (JBool bPrev).

Definition isFlag (v : jsval) : bool :=
  match v with JBool _ => true | _ => false end.

(** What [incrementalUpdate] does with a state it reuses, once the chain
    head is known. *)
Definition reuse (env : Env) (fuel : nat) (st : State) (b latest deadlineMs : Z)
  : M State :=
  let curWeekMs := currentWeekMs st in
  let prevWeekMs := curWeekMs - WEEK_MS in
  if latest <? b + 1 then
    bind (nowMs env) (fun updated =>
    ret (mkState (schemaVersion st) (backfillFromBlock st) (anchorTsSec st)
                 curWeekMs prevWeekMs (lastProcessedBlock st) (weeks st) updated))
  else
    bind (try_catch
            (fetchLogsRange env fuel (b + 1) latest 8000 900 deadlineMs)
            (fun _ => bind (fetchLogsViaBaseScan env fuel (b + 1) latest deadlineMs)
                           (fun logs => ret (mkScan logs latest true)))) (fun r =>
    bind (lift (applyLogs curWeekMs prevWeekMs (weeks st) (logs r))) (fun weeks1 =>
    bind (nowMs env) (fun updated =>
    ret (mkState (schemaVersion st) (backfillFromBlock st) (anchorTsSec st)
                 curWeekMs prevWeekMs
                 (Some (if complete r then latest else lastScannedBlock r))
                 (keepAndPrune curWeekMs prevWeekMs weeks1) updated)))).

(** ** Observations on traces *)

(** Every interaction that [m] adds, from any world, satisfies [P]. *)
Definition emits {A} (P : Event -> Prop) (m : M A) : Prop :=
  forall w, exists new,
    trace (snd (m w)) = (new ++ trace w)%list /\ Forall P new.

(** A time-to-block lookup: the explorer's block-by-time endpoint, or a
    block header read of the binary search. *)
Definition isLookup (ev : Event) : bool :=
  match ev with
  | EvBlockByTime _ _ _ => true
  | EvRpc _ (eth_getBlockByNumber _) _ => true
  | _ => false
  end.

Definition noLookup (ev : Event) : Prop := isLookup ev = false.


(** A request for logs starts at block [from] (explorer) or at a later
    chunk of the range that starts there (RPC scan); there is no
    time-to-block lookup. *)
Definition fetchesFrom (from : Z) (ev : Event) : Prop :=
  match ev with
  | EvRpc _ (eth_getLogs f _) _ => from <= f
  | EvScanLogs f _ _ _ => f = from
  | EvRpc _ (eth_getBlockByNumber _) _ => False
  | EvBlockByTime _ _ _ => False
  | _ => True
  end.

(** The first block of a request for logs. *)
Definition fetchStart (ev : Event) : option Z :=
  match ev with
  | EvRpc _ (eth_getLogs f _) _ => Some f
  | EvScanLogs f _ _ _ => Some f
  | _ => None
  end.

(** The first block of the first request for logs in a course of events
    (oldest first), if there is one. *)
Fixpoint firstFetch (evs : list Event) : option Z :=
  match evs with
  | [] => None
  | ev :: r =>
      match fetchStart ev with
      | Some f => Some f
      | None => firstFetch r
      end
  end.

(** No request for logs, or the first one starts at [from]. *)
Definition startsAt (from : Z) (evs : list Event) : Prop :=
  firstFetch evs = None \/ firstFetch evs = Some from.

(** A chunk of the RPC scan that was answered: its bounds and its logs. *)
Record Chunk := mkChunk { c_from : Z; c_to : Z; c_logs : list Log }.

Definition chunkOf (ev : Event) : list Chunk :=
  match ev with
  | EvRpc _ (eth_getLogs f t) (RpcOk r) => [mkChunk f t (logsOf r)]
  | _ => []
  end.

(** The answered chunks of a trace (newest first), oldest first. *)
Fixpoint chunksOf (tr : list Event) : list Chunk :=
  match tr with
  | [] => []
  | ev :: r => (chunksOf r ++ chunkOf ev)%list
  end.

(** Chunks that tile a range from [from] on, none beyond [toBlock]. *)
Fixpoint contiguous (from toBlock : Z) (cs : list Chunk) : Prop :=
  match cs with
  | [] => True
  | c :: r => c_from c = from /\ c_to c <= toBlock /\ contiguous (c_to c + 1) toBlock r
  end.

(** Upper bound of the last chunk, [init] when there is none. *)
Definition lastTo (init : Z) (cs : list Chunk) : Z :=
  fold_left (fun _ c => c_to c) cs init.

Definition chunkLogs (cs : list Chunk) : list Log :=
  List.concat (List.map c_logs cs).

(** ** Sample inputs *)

Module Sample.

(** Monday 2023-11-20 00:00:00 UTC and the Mondays before it. *)
Definition week0 : Z := 1700438400000.
Definition weekM1 : Z := 1699833600000.
Definition weekM2 : Z := 1699228800000.


(** [data] of an [ActionLogged] event in the layout
    [timestamp][offset = 64][length = 64][points][week]. *)
Definition eventData (ts p w : Z) : string :=
  "0x" ++ word32 ts ++ word32 64 ++ word32 64 ++ word32 p ++ word32 w.

Definition user1 : string :=
  "0x0000000000000000000000001111111111111111111111111111111111111111".
Definition addr1 : string := "0x1111111111111111111111111111111111111111".

Definition logOf (w p : Z) : Log :=
  mkLog (Some user1) (Some (eventData 1700000000 p w)).


Definition weeks0 : list WeekState :=
  [mkWeek week0 [(addr1, 5)]; mkWeek weekM1 []].

Definition world0 : World := mkWorld [] None None 0.

Definition quote : string := String (ascii_of_nat 34) EmptyString.

(** The explorer has nothing: [status "0"], "No records found". *)
Definition noRecords : ScanReply :=
  ScanAnswer (mkScanBody true 200 false "{}" "0" "No records found" "[]" "" "" []).

(** The explorer names block [n] (given in decimal). *)
Definition blockFound (n : string) : ScanReply :=
  ScanAnswer (mkScanBody true 200 false "{}" "1" "OK"
                         (quote ++ n ++ quote) n n []).

(** An environment without store or name service, whose nodes always
    answer: the chain head is [latestHex], the logs of a range are
    [logsFor from to]. *)
Definition simpleEnv (clockf : list Event -> Z) (latestHex : string)
  (logsFor : Z -> Z -> list Log) (byTime scan : ScanReply) : Env :=
  mkEnv [] false None clockf
    (fun _ _ m =>
       match m with
       | eth_blockNumber => RpcOk (RText latestHex)
       | eth_getLogs f t => RpcOk (RLogs (logsFor f t))
       | eth_getBlockByNumber _ => RpcOk (RBlock (Some "0x6553f100"))
       end)
    (fun _ _ _ _ => scan)
    (fun _ _ _ => byTime)
    (fun _ _ => NamesAnswer true [])
    (fun _ => Ok None)
    (fun _ => Ok None)
    (fun _ _ _ _ => Ok true)
    (fun _ _ => Ok tt).

(** A clock that advances one second per interaction. *)
Definition ticking (tr : list Event) : Z := 1000 * Z.of_nat (List.length tr).

(** A clock that stands still inside the week of [week0]. *)
Definition still (tr : list Event) : Z := week0 + 1000.

(** One log of 7 points for [week0] in every range that holds block 150. *)
Definition logsAt150 (f t : Z) : list Log :=
  if ((f <=? 150) && (150 <=? t))%bool then [logOf week0 7] else [].

Definition tickingEnv : Env :=
  simpleEnv ticking "0x1f4" logsAt150 (blockFound "40") noRecords.

(** One log of 7 points for [week0] in every range that holds block 95. *)
Definition logsAt95 (f t : Z) : list Log :=
  if ((f <=? 95) && (95 <=? t))%bool then [logOf week0 7] else [].

(** The chain head is block 100. *)
Definition stillEnv : Env :=
  simpleEnv still "0x64" logsAt95 (blockFound "40") noRecords.

(** A state of the current schema for the week of [week0], scanned up to
    block [b]. *)
Definition stateAt (b : Z) : State :=
  mkState 4 (Some 40) 1699830000 week0 weekM1 (Some b) weeks0 (week0 + 500).

Definition deadline0 : Z := week0 + 1000 + MAX_SERVERLESS_MS.

(** All nodes are unreachable; a store is configured and empty. *)
Definition downEnv : Env :=
  mkEnv [] true None still
    (fun _ _ _ => RpcFailed (Error "fetch failed"))
    (fun _ _ _ _ => noRecords)
    (fun _ _ _ => blockFound "40")
    (fun _ _ => NamesAnswer true [])
    (fun _ => Ok None)
    (fun _ => Ok None)
    (fun _ _ _ _ => Ok true)
    (fun _ _ => Ok tt).

Definition plainRequest : Request := mkRequest None None.

(** States whose current week is the week before [week0], scanned up to
    block [b]: of [api/leaderboard.js] and of the revision with rollover. *)
Definition weeksBehind : list WeekState :=
  [mkWeek weekM1 [(addr1, 5)]; mkWeek weekM2 []].

Definition stateBehind (b : Z) : State :=
  mkState 4 (Some 40) 1699225200 weekM1 weekM2 (Some b) weeksBehind (weekM1 + 500).

Definition rolloverStateBehind (b : Z) : Rollover.State :=
  Rollover.mkState weekM1 weekM2 (Some b) weeksBehind (weekM1 + 500).

End Sample.

(* ================================================================= *)
(** * Part II: properties *)
(* ================================================================= *)

(** ** Strings *)

Lemma substring_whole (a b : string) :
  String.substring 0 (String.length a) (a ++ b) = a.
Proof.
  induction a as [|c a IH]; simpl.
  - now destruct b.
  - now rewrite IH.
Qed.

Lemma substring_skip (a b : string) (n : nat) :
  String.substring (String.length a) n (a ++ b) = String.substring 0 n b.
Proof.
  induction a as [|c a IH]; simpl; auto.
Qed.

Lemma substring_all (s : string) :
  String.substring 0 (String.length s) s = s.
Proof.
  induction s as [|c s IH]; simpl; congruence.
Qed.

Lemma length_append (a b : string) :
  String.length (a ++ b) = (String.length a + String.length b)%nat.
Proof.
  induction a as [|c a IH]; simpl; auto.
Qed.

Lemma slice_inside (s : string) (a b : Z) :
  0 <= a <= b -> b <= Js.len s ->
  Js.slice s a b = String.substring (Z.to_nat a) (Z.to_nat (b - a)) s.
Proof.
  intros Ha Hb. unfold Js.slice, Js.relIndex.
  destruct (Z.ltb_spec a 0); [lia|].
  destruct (Z.ltb_spec b 0); [lia|].
  f_equal; lia.
Qed.

Lemma slice_prefix (a b : string) :
  Js.slice (a ++ b) 0 (Js.len a) = a.
Proof.
  rewrite slice_inside.
  - rewrite Z.sub_0_r. unfold Js.len. rewrite Nat2Z.id. apply substring_whole.
  - unfold Js.len; lia.
  - unfold Js.len. rewrite length_append. lia.
Qed.

Lemma slice_suffix (a b : string) :
  Js.slice (a ++ b) (Js.len a) (Js.len a + Js.len b) = b.
Proof.
  rewrite slice_inside.
  - unfold Js.len. rewrite Nat2Z.id.
    replace (Z.to_nat _) with (String.length b) by lia.
    rewrite substring_skip. apply substring_all.
  - unfold Js.len; lia.
  - unfold Js.len. rewrite length_append. lia.
Qed.

(** ** Hexadecimal words *)

Lemma hexChar_cases (d : Z) (P : Z -> Prop) :
  0 <= d < 16 ->
  P 0 -> P 1 -> P 2 -> P 3 -> P 4 -> P 5 -> P 6 -> P 7 ->
  P 8 -> P 9 -> P 10 -> P 11 -> P 12 -> P 13 -> P 14 -> P 15 -> P d.
Proof.
  intros H; intros.
  assert (d = 0 \/ d = 1 \/ d = 2 \/ d = 3 \/ d = 4 \/ d = 5 \/ d = 6 \/ d = 7 \/
          d = 8 \/ d = 9 \/ d = 10 \/ d = 11 \/ d = 12 \/ d = 13 \/ d = 14 \/ d = 15)
    as C by lia.
  repeat (destruct C as [C | C]; [subst d; assumption |]). subst d; assumption.
Qed.

Lemma digitVal_hexChar (d : Z) :
  0 <= d < 16 -> Js.digitVal (hexChar d) = Some d.
Proof.
  intros H. pattern d. apply hexChar_cases; auto.
Qed.

Lemma isWhite_hexChar (d : Z) :
  0 <= d < 16 -> Js.isWhite (hexChar d) = false.
Proof.
  intros H. pattern d. apply hexChar_cases; auto.
Qed.

Lemma length_hexDigits (n : nat) (z : Z) :
  String.length (hexDigits n z) = n.
Proof.
  revert z; induction n as [|n IH]; intros z; simpl; auto.
  rewrite length_append, IH. simpl. lia.
Qed.

Lemma digitsVal_app (base acc : Z) (s t : string) :
  Js.digitsVal base acc (s ++ t) =
  match Js.digitsVal base acc s with
  | Some a => Js.digitsVal base a t
  | None => None
  end.
Proof.
  revert acc; induction s as [|c s IH]; intros acc; simpl; auto.
  destruct (Js.digitVal c) as [d|]; auto.
  destruct (d <? base); auto.
Qed.

Lemma digitsVal_hexDigits (n : nat) :
  forall z acc, 0 <= z < 16 ^ Z.of_nat n ->
    Js.digitsVal 16 acc (hexDigits n z) = Some (acc * 16 ^ Z.of_nat n + z).
Proof.
  induction n as [|n IH]; intros z acc Hz.
  - simpl in *. f_equal. lia.
  - rewrite Nat2Z.inj_succ, Z.pow_succ_r in * by lia.
    simpl hexDigits. rewrite digitsVal_app, IH.
    + cbn [Js.digitsVal].
      assert (0 <= z mod 16 < 16) as Hm by (apply Z.mod_pos_bound; lia).
      rewrite digitVal_hexChar by assumption.
      destruct (Z.ltb_spec (z mod 16) 16); [|lia].
      f_equal. pose proof (Z.div_mod z 16 ltac:(lia)).
      generalize dependent (16 ^ Z.of_nat n). intros; nia.
    + split; [apply Z.div_pos; lia | apply Z.div_lt_upper_bound; lia].
Qed.

Lemma trimEnd_hexDigits (n : nat) :
  forall z, Js.trimEnd (hexDigits (S n) z) = hexDigits (S n) z.
Proof.
  induction n as [|n IH]; intros z.
  - simpl. rewrite isWhite_hexChar; auto. apply Z.mod_pos_bound; lia.
  - change (hexDigits (S (S n)) z)
      with (hexDigits (S n) (z / 16) ++ String (hexChar (z mod 16)) EmptyString).
    specialize (IH (z / 16)). revert IH.
    generalize (hexDigits (S n) (z / 16)) as s.
    assert (Js.isWhite (hexChar (z mod 16)) = false) as Hw
      by (apply isWhite_hexChar, Z.mod_pos_bound; lia).
    generalize dependent (hexChar (z mod 16)). intros c Hw s.
    induction s as [|a s IHs]; simpl.
    + now rewrite Hw.
    + intros E. destruct (Js.trimEnd s) eqn:Es.
      * destruct (Js.isWhite a) eqn:Ea; [discriminate|].
        injection E as E. subst s. simpl. now rewrite Hw.
      * injection E as E. rewrite IHs by (now rewrite E).
        now destruct s.
Qed.

Lemma BigInt_word32 (z : Z) :
  0 <= z < 2 ^ 256 -> Js.BigInt ("0x" ++ word32 z) = Ok z.
Proof.
  intros Hz. unfold Js.BigInt, Js.StringToBigInt, Js.trim, word32.
  change (Js.trimStart ("0x" ++ hexDigits 64 z)) with ("0x" ++ hexDigits 64 z).
  assert (Js.trimEnd ("0x" ++ hexDigits 64 z) = "0x" ++ hexDigits 64 z) as ->.
  { change ("0x" ++ hexDigits 64 z) with (String "0" (String "x" (hexDigits 64 z))).
    cbn [Js.trimEnd]. rewrite trimEnd_hexDigits.
    now destruct (hexDigits 64 z) eqn:E. }
  cbn [append]. unfold Js.literal.
  destruct (hexDigits 64 z) eqn:E.
  - apply (f_equal String.length) in E. rewrite length_hexDigits in E. discriminate.
  - rewrite <- E, digitsVal_hexDigits; [f_equal; lia|].
    change (16 ^ Z.of_nat 64) with (2 ^ 256). lia.
Qed.

Lemma hexDigits_chars (n : nat) :
  forall z c, In c (list_ascii_of_string (hexDigits n z)) ->
    exists d, 0 <= d < 16 /\ c = hexChar d.
Proof.
  induction n as [|n IH]; intros z c; simpl; [tauto|].
  intros H.
  assert (forall a b, list_ascii_of_string (a ++ b) =
                      (list_ascii_of_string a ++ list_ascii_of_string b)%list) as E.
  { induction a; simpl; intros; congruence. }
  rewrite E in H. apply in_app_or in H. destruct H as [H | H].
  - eauto.
  - simpl in H. destruct H as [<- | []].
    exists (z mod 16). split; auto. apply Z.mod_pos_bound; lia.
Qed.

Lemma word32_no_prefix (p : Z) (t : string) :
  Js.startsWith (word32 p ++ t) "0x" = false.
Proof.
  unfold Js.startsWith, word32.
  pose proof (length_hexDigits 64 p) as L.
  pose proof (hexDigits_chars 64 p) as C.
  destruct (hexDigits 64 p) as [|a [|b r]]; try discriminate.
  destruct (C b) as (d & Hd & ->); [simpl; auto|].
  cbn [append String.prefix].
  destruct (ascii_dec "0" a); auto.
  destruct (ascii_dec "x" (hexChar d)) as [E|]; auto.
  exfalso. revert E. pattern d. apply hexChar_cases; auto; discriminate.
Qed.

Lemma len_word32 (z : Z) : Js.len (word32 z) = 64.
Proof. unfold Js.len, word32. now rewrite length_hexDigits. Qed.

Lemma strip0x_prefixed (t : string) : strip0x (Some ("0x" ++ t)) = t.
Proof.
  unfold strip0x, orEmpty, Js.startsWith, Js.sliceFrom.
  cbn [append String.prefix]. do 2 (destruct (ascii_dec _ _); [|congruence]).
  assert (String.prefix "" t = true) as -> by now destruct t.
  change (String "0" (String "x" t)) with ("0x" ++ t).
  replace (Js.len ("0x" ++ t)) with (Js.len "0x" + Js.len t)
    by (unfold Js.len; simpl String.length; lia).
  apply (slice_suffix "0x" t).
Qed.

Lemma decode_words (p w : Z) :
  0 <= p < 2 ^ 256 -> 0 <= w < 2 ^ 256 ->
  forall x, strip0x x = word32 p ++ word32 w ->
    decodePointsAndWeek x = Ok (Some (mkDecoded p w)).
Proof.
  intros Hp Hw x E. unfold decodePointsAndWeek, wordAt. rewrite E.
  assert (Js.len (word32 p ++ word32 w) = 128) as L.
  { unfold Js.len. rewrite length_append. unfold word32.
    now rewrite !length_hexDigits. }
  rewrite L.
  assert ((word32 p ++ word32 w =? "")%string = false) as ->.
  { apply String.eqb_neq. intros C. rewrite C in L. discriminate. }
  cbn [orb Z.ltb Z.compare Pos.compare Pos.compare_cont].
  rewrite <- (len_word32 p) at 1. rewrite slice_prefix, BigInt_word32 by assumption.
  cbn [res_bind].
  replace 128 with (Js.len (word32 p) + Js.len (word32 w))
    by (rewrite !len_word32; reflexivity).
  replace 64 with (Js.len (word32 p)) at 1 by apply len_word32.
  rewrite slice_suffix, BigInt_word32 by assumption.
  reflexivity.
Qed.

(** ** The payload codec *)

(** C7.  Round trip: for all unsigned 256-bit [p] and [w], decoding the
    reference encoding of the payload (the 32-byte big-endian word of the
    points followed by that of the week, in hexadecimal, with or without
    the [0x] prefix) with [decodePointsAndWeek] returns exactly
    [{ points: p, week: w }]. *)
Theorem decode_encode_roundtrip (p w : Z) :
  0 <= p < 2 ^ 256 -> 0 <= w < 2 ^ 256 ->
  decodePointsAndWeek (Some (encodePointsAndWeek p w)) = Ok (Some (mkDecoded p w))
  /\ decodePointsAndWeek (Some (word32 p ++ word32 w)) = Ok (Some (mkDecoded p w)).
Proof.
  intros Hp Hw. split.
  - apply (decode_words p w Hp Hw). apply strip0x_prefixed.
  - apply (decode_words p w Hp Hw).
    unfold strip0x, orEmpty. now rewrite word32_no_prefix.
Qed.

Lemma decode_encode_roundtrip_witness :
  decodePointsAndWeek (Some (encodePointsAndWeek 255 1700438400000))
    = Ok (Some (mkDecoded 255 1700438400000))
  /\ decodePointsAndWeek (Some (word32 255 ++ word32 1700438400000))
    = Ok (Some (mkDecoded 255 1700438400000)).
Proof.
  apply (decode_encode_roundtrip 255 1700438400000); split; try lia;
    apply Z.pow_gt_lin_r || (vm_compute; reflexivity).
Defined.

(** ** Sorting and pruning *)

Lemma insert_perm {A} (cmp : A -> A -> Z) (x : A) (l : list A) :
  Permutation (JsArray.insert cmp x l) (x :: l).
Proof.
  induction l as [|y r IH]; simpl; auto.
  destruct (cmp x y <=? 0); auto.
  rewrite IH. apply perm_swap.
Qed.

Lemma sort_perm {A} (cmp : A -> A -> Z) (l : list A) :
  Permutation (JsArray.sort cmp l) l.
Proof.
  induction l as [|x l IH]; simpl; auto.
  rewrite insert_perm. now constructor.
Qed.

Lemma byPointsDesc_le (x y : string * Z) :
  byPointsDesc x y <= 0 <-> ranksBefore x y.
Proof.
  unfold byPointsDesc, ranksBefore.
  destruct (Z.gtb_spec (snd y) (snd x)); [lia|].
  destruct (Z.ltb_spec (snd y) (snd x)); lia.
Qed.

Lemma insert_sorted (x : string * Z) (l : list (string * Z)) :
  StronglySorted ranksBefore l ->
  StronglySorted ranksBefore (JsArray.insert byPointsDesc x l).
Proof.
  induction 1 as [|y r Hs IH Hy]; simpl.
  - repeat constructor.
  - destruct (Z.leb_spec (byPointsDesc x y) 0) as [Hle | Hgt].
    + apply byPointsDesc_le in Hle.
      constructor; [now constructor|].
      constructor; auto.
      eapply Forall_impl; [|exact Hy]. unfold ranksBefore in *. intros; lia.
    + constructor; auto.
      assert (ranksBefore y x) as Hyx.
      { unfold ranksBefore. destruct (Z.le_gt_cases (snd x) (snd y)); auto.
        exfalso. assert (byPointsDesc x y <= 0); [apply byPointsDesc_le|]; unfold ranksBefore; lia. }
      eapply Permutation_Forall; [symmetry; apply insert_perm|].
      now constructor.
Qed.

Lemma sort_sorted (l : list (string * Z)) :
  StronglySorted ranksBefore (JsArray.sort byPointsDesc l).
Proof.
  induction l as [|x l IH]; simpl; [constructor | now apply insert_sorted].
Qed.

Lemma in_skipn {A} (k : nat) (l : list A) (x : A) :
  In x (skipn k l) -> In x l.
Proof.
  intros H. rewrite <- (firstn_skipn k l). apply in_or_app. now right.
Qed.

Lemma in_firstn {A} (k : nat) (l : list A) (x : A) :
  In x (firstn k l) -> In x l.
Proof.
  intros H. rewrite <- (firstn_skipn k l). apply in_or_app. now left.
Qed.

Lemma sorted_split (l : list (string * Z)) (k : nat) :
  StronglySorted ranksBefore l ->
  forall x y, In x (firstn k l) -> In y (skipn k l) -> ranksBefore x y.
Proof.
  intros Hs; revert k. induction Hs as [|a r Hs IH Ha]; intros k x y Hx Hy.
  - now rewrite firstn_nil in Hx.
  - destruct k as [|k]; simpl in *; [tauto|].
    destruct Hx as [<- | Hx].
    + rewrite Forall_forall in Ha. apply Ha.
      eapply in_skipn; eauto.
    + eapply IH; eauto.
Qed.

Lemma set_fresh (m : JsMap) (k : string) (v : Z) :
  ~ In k (List.map fst m) -> JsMap.set m k v = (m ++ [(k, v)])%list.
Proof.
  induction m as [|[k' v'] r IH]; simpl; auto.
  intros H. destruct (String.eqb_spec k' k); [tauto|].
  rewrite IH; tauto.
Qed.

Lemma ofEntries_nodup (l : list (string * Z)) :
  NoDup (List.map fst l) -> JsMap.ofEntries l = l.
Proof.
  unfold JsMap.ofEntries.
  enough (forall acc, NoDup (List.map fst (acc ++ l)%list) ->
            fold_left (fun m e => JsMap.set m (fst e) (snd e)) l acc = (acc ++ l)%list)
    as H by (intros; now apply (H [])).
  induction l as [|[k v] r IH]; intros acc Hn; simpl.
  - now rewrite app_nil_r.
  - rewrite set_fresh.
    + rewrite IH; rewrite <- app_assoc; auto.
    + rewrite List.map_app in Hn. simpl in Hn.
      apply NoDup_remove_2 in Hn. intros C. apply Hn, in_or_app. auto.
Qed.

Lemma slice_firstn {A} (l : list A) (k : nat) :
  JsArray.slice l 0 (Z.of_nat k) = firstn k l.
Proof.
  unfold JsArray.slice, Js.relIndex.
  destruct (Z.ltb_spec 0 0); [lia|].
  destruct (Z.ltb_spec (Z.of_nat k) 0); [lia|].
  replace (Z.to_nat (Z.min 0 _)) with 0%nat by lia. simpl skipn.
  destruct (Nat.le_gt_cases k (List.length l)).
  - f_equal. lia.
  - rewrite !firstn_all2; auto; lia.
Qed.

Lemma NoDup_firstn {A} (k : nat) (l : list A) :
  NoDup l -> NoDup (firstn k l).
Proof.
  intros H. rewrite <- (firstn_skipn k l) in H.
  eapply NoDup_app_remove_r; eauto.
Qed.

Lemma pruneToTop_firstn (m : JsMap) (K : nat) :
  NoDup (List.map fst m) ->
  pruneToTop m (Z.of_nat K) = firstn K (JsArray.sort byPointsDesc m).
Proof.
  intros Hn. unfold pruneToTop. rewrite slice_firstn.
  apply ofEntries_nodup. rewrite <- firstn_map. apply NoDup_firstn.
  eapply Permutation_NoDup; [|exact Hn].
  apply Permutation_map. symmetry. apply sort_perm.
Qed.

(** C8.  For every address-to-total map [m] (keys pairwise distinct) and
    every count [K], [pruneToTop(m, K)] has at most [K] entries, all of
    them entries of [m] with their totals; every entry it drops has a total
    less than or equal to that of every entry it keeps; and it drops
    something only when it keeps [K] entries.  So an address is dropped
    only if [K] kept addresses have totals at least as large. *)
Theorem pruneToTop_keeps_top (m : JsMap) (K : nat) :
  NoDup (List.map fst m) ->
  let kept := pruneToTop m (Z.of_nat K) in
  JsMap.size kept <= Z.of_nat K
  /\ (forall e, In e kept -> In e m)
  /\ NoDup (List.map fst kept)
  /\ (forall d e, In d m -> ~ In d kept -> In e kept -> snd d <= snd e)
  /\ (forall d, In d m -> ~ In d kept -> JsMap.size kept = Z.of_nat K).
Proof.
  intros Hn kept. subst kept. rewrite (pruneToTop_firstn m K Hn).
  set (arr := JsArray.sort byPointsDesc m).
  assert (Permutation arr m) as Hp by apply sort_perm.
  assert (forall d, In d m -> ~ In d (firstn K arr) -> In d (skipn K arr)) as Hdrop.
  { intros d Hd Hk. apply (Permutation_in _ (Permutation_sym Hp)) in Hd.
    rewrite <- (firstn_skipn K arr) in Hd. apply in_app_or in Hd. tauto. }
  unfold JsMap.size. repeat split.
  - pose proof (firstn_le_length K arr). lia.
  - intros e He. eapply Permutation_in; [exact Hp|]. eapply in_firstn; eauto.
  - rewrite <- firstn_map. apply NoDup_firstn.
    eapply Permutation_NoDup; [|exact Hn]. apply Permutation_map. now symmetry.
  - intros d e Hd Hk He.
    apply (sorted_split arr K (sort_sorted m) e d He). auto.
  - intros d Hd Hk. specialize (Hdrop d Hd Hk).
    rewrite firstn_length_le; auto.
    destruct (Nat.le_gt_cases K (List.length arr)); auto.
    rewrite skipn_all2 in Hdrop by lia. destruct Hdrop.
Qed.

Lemma pruneToTop_keeps_top_witness :
  let m := [("0xaa", 5); ("0xbb", 9); ("0xcc", 5); ("0xdd", 1)] in
  let kept := pruneToTop m 2 in
  kept = [("0xbb", 9); ("0xaa", 5)]
  /\ JsMap.size kept <= 2
  /\ (forall d e, In d m -> ~ In d kept -> In e kept -> snd d <= snd e).
Proof.
  intros m kept. split; [reflexivity|].
  assert (NoDup (List.map fst m)) as Hn.
  { simpl. repeat constructor; simpl; intuition discriminate. }
  pose proof (pruneToTop_keeps_top m 2 Hn) as H. cbv zeta in H.
  change (Z.of_nat 2) with 2 in H. fold kept in H. tauto.
Defined.

(** ** Numbers and BigInts *)

Lemma roundDouble_large (z : Z) : 2 ^ 53 <= z -> 2 ^ 53 <= Js.roundDouble z.
Proof.
  intros Hz. unfold Js.roundDouble.
  destruct (Z.ltb_spec z (2 ^ 53)); [lia|].
  assert (53 <= Z.log2 z) as Hl by (apply Z.log2_le_pow2; lia).
  set (e := Z.log2 z - 52).
  assert (1 <= e) as He by (unfold e; lia).
  assert (2 ^ 52 <= Z.shiftr z e) as Hq.
  { rewrite Z.shiftr_div_pow2 by lia.
    apply Z.div_le_lower_bound; [apply Z.pow_pos_nonneg; lia|].
    rewrite Z.mul_comm, <- Z.pow_add_r by lia.
    replace (52 + e) with (Z.log2 z) by (unfold e; lia).
    apply Z.log2_spec. lia. }
  assert (2 <= 2 ^ e) as Hp.
  { change 2 with (2 ^ 1) at 1. apply Z.pow_le_mono_r; lia. }
  rewrite Z.shiftl_mul_pow2 by lia.
  change (2 ^ 53) with (2 ^ 52 * 2).
  apply Z.mul_le_mono_nonneg; try lia.
  destruct (if _ <? _ then _ else _); lia.
Qed.

Lemma Number_of_BigInt_exact (b c : Z) :
  0 <= b -> c < 2 ^ 53 -> Js.Number_of_BigInt b = c <-> b = c.
Proof.
  intros Hb Hc. unfold Js.Number_of_BigInt.
  destruct (Z.ltb_spec b 0); [lia|].
  destruct (Z.lt_ge_cases b (2 ^ 53)) as [Hs | Hl].
  - unfold Js.roundDouble. destruct (Z.ltb_spec b (2 ^ 53)); [tauto | lia].
  - pose proof (roundDouble_large b Hl). split; lia.
Qed.

Lemma digitsVal_nonneg (base : Z) (s : string) :
  forall acc z, 0 <= base -> 0 <= acc -> Js.digitsVal base acc s = Some z -> 0 <= z.
Proof.
  induction s as [|c s IH]; simpl; intros acc z Hb Ha E.
  - injection E as <-. assumption.
  - destruct (Js.digitVal c) as [d|] eqn:Ed; [|discriminate].
    destruct (d <? base); [|discriminate].
    assert (0 <= d).
    { unfold Js.digitVal, Js.between in Ed.
      repeat match type of Ed with
             | (if ?b then _ else _) = _ => destruct b eqn:?; [injection Ed as <-|]
             end; try discriminate;
        repeat match goal with
               | H : (_ && _)%bool = true |- _ => apply andb_prop in H; destruct H
               | H : Nat.leb _ _ = true |- _ => apply Nat.leb_le in H
               end; lia. }
    eapply IH; [| |exact E]; nia.
Qed.

Lemma trimEnd_cons_nonwhite (c : ascii) (s : string) :
  Js.isWhite c = false -> Js.trimEnd (String c s) = String c (Js.trimEnd s).
Proof.
  intros H. simpl. rewrite H. now destruct (Js.trimEnd s).
Qed.

Lemma BigInt_0x_nonneg (s : string) (z : Z) :
  Js.BigInt ("0x" ++ s) = Ok z -> 0 <= z.
Proof.
  unfold Js.BigInt, Js.StringToBigInt, Js.trim.
  change (Js.trimStart ("0x" ++ s)) with (String "0" (String "x" s)).
  rewrite !trimEnd_cons_nonwhite by reflexivity.
  unfold Js.literal. destruct (Js.trimEnd s) eqn:E; [discriminate|].
  destruct (Js.digitsVal 16 0 _) eqn:D; [|discriminate].
  intros [= <-]. eapply digitsVal_nonneg; [| |exact D]; lia.
Qed.

Lemma decodePointsAndWeek_nonneg (x : option string) (d : Decoded) :
  decodePointsAndWeek x = Ok (Some d) -> 0 <= points d /\ 0 <= week d.
Proof.
  unfold decodePointsAndWeek, wordAt.
  destruct (_ || _)%bool; [discriminate|].
  destruct (Js.BigInt _) as [p|] eqn:Ep; [|discriminate].
  cbn [res_bind].
  destruct (Js.BigInt _) as [w|] eqn:Ew in |- *; [|discriminate].
  cbn [res_bind]. intros [= <-]. simpl.
  split; eapply BigInt_0x_nonneg; eauto.
Qed.

(** ** The merge of decoded logs *)

(** C6.  A log whose payload decodes to a week that equals neither tracked
    week start is skipped by the merge: the buckets after the log are the
    buckets before it (no total changes, no address and no bucket is
    added).  The tracked week starts are Numbers, below 2^53 as every time
    value of a [Date] is. *)
Theorem foreign_week_is_skipped
  (curWeekMs prevWeekMs : Z) (weeks : list WeekState) (l : Log) (d : Decoded) :
  curWeekMs < 2 ^ 53 -> prevWeekMs < 2 ^ 53 ->
  decodeLogData (data l) = Ok (Some d) ->
  week d <> curWeekMs -> week d <> prevWeekMs ->
  applyLog curWeekMs prevWeekMs weeks l = Ok weeks.
Proof.
  intros Hc Hp Hd Hnc Hnp. unfold applyLog. unfold decodeLogData in Hd.
  destruct (extractBytesParamFromLogData (data l)) as [payload|]; [|discriminate].
  cbn [res_bind] in *. rewrite Hd. cbn [res_bind].
  destruct (decodePointsAndWeek_nonneg _ _ Hd) as [_ Hw].
  destruct (Z.eqb_spec (Js.Number_of_BigInt (week d)) curWeekMs) as [E|_].
  { apply (proj1 (Number_of_BigInt_exact _ _ Hw Hc)) in E. contradiction. }
  destruct (Z.eqb_spec (Js.Number_of_BigInt (week d)) prevWeekMs) as [E|_].
  { apply (proj1 (Number_of_BigInt_exact _ _ Hw Hp)) in E. contradiction. }
  reflexivity.
Qed.

Lemma foreign_week_is_skipped_witness :
  applyLog Sample.week0 Sample.weekM1 Sample.weeks0 (Sample.logOf Sample.weekM2 7)
  = Ok Sample.weeks0.
Proof.
  apply (foreign_week_is_skipped Sample.week0 Sample.weekM1 Sample.weeks0
           (Sample.logOf Sample.weekM2 7) (mkDecoded 7 Sample.weekM2));
    try (vm_compute; reflexivity); vm_compute; discriminate.
Defined.



(** ** Decoding hexadecimal data *)












Lemma length_substring_le (s : string) :
  forall n m, (String.length (String.substring n m s) <= String.length s)%nat.
Proof.
  induction s as [|c s IH]; intros n m; simpl.
  - destruct n, m; simpl; lia.
  - destruct n as [|n]; [destruct m as [|m]; simpl; [lia|]|].
    + specialize (IH 0%nat m). lia.
    + specialize (IH n m). lia.
Qed.

Lemma len_slice_le (s : string) (a b : Z) : Js.len (Js.slice s a b) <= Js.len s.
Proof.
  unfold Js.len, Js.slice. pose proof (length_substring_le s
    (Z.to_nat (Js.relIndex (Z.of_nat (String.length s)) a))
    (Z.to_nat (Z.max (Js.relIndex (Z.of_nat (String.length s)) b
                      - Js.relIndex (Z.of_nat (String.length s)) a) 0))).
  unfold Js.len. lia.
Qed.





(** ** Traces of effectful code *)

Lemma emits_ret {A} (P : Event -> Prop) (a : A) : emits P (ret a).
Proof. intros w. exists []. split; auto. Qed.

Lemma emits_throw {A} (P : Event -> Prop) (e : JsError) : emits P (@throw A e).
Proof. intros w. exists []. split; auto. Qed.

Lemma emits_outOfFuel {A} (P : Event -> Prop) : emits P (@outOfFuel A).
Proof. intros w. exists []. split; auto. Qed.

Lemma emits_lift {A} (P : Event -> Prop) (r : res A) : emits P (lift r).
Proof. destruct r; [apply emits_ret | apply emits_throw]. Qed.

Lemma emits_bind {A B} (P : Event -> Prop) (m : M A) (k : A -> M B) :
  emits P m -> (forall a, emits P (k a)) -> emits P (bind m k).
Proof.
  intros Hm Hk w. unfold bind. destruct (Hm w) as (n1 & E1 & F1).
  destruct (m w) as [[a | e |] w1]; simpl in E1.
  - destruct (Hk a w1) as (n2 & E2 & F2).
    exists (n2 ++ n1)%list. rewrite E2, E1, app_assoc. split; auto.
    apply Forall_app; auto.
  - exists n1. auto.
  - exists n1. auto.
Qed.

Lemma emits_try_catch {A} (P : Event -> Prop) (m : M A) (h : JsError -> M A) :
  emits P m -> (forall e, emits P (h e)) -> emits P (try_catch m h).
Proof.
  intros Hm Hh w. unfold try_catch. destruct (Hm w) as (n1 & E1 & F1).
  destruct (m w) as [[a | e |] w1]; simpl in E1.
  - exists n1. auto.
  - destruct (Hh e w1) as (n2 & E2 & F2).
    exists (n2 ++ n1)%list. rewrite E2, E1, app_assoc. split; auto.
    apply Forall_app; auto.
  - exists n1. auto.
Qed.

Lemma emits_attempt {A} (P : Event -> Prop) (m : M A) :
  emits P m -> emits P (attempt m).
Proof.
  intros H. apply emits_try_catch.
  - apply emits_bind; auto. intros; apply emits_ret.
  - intros; apply emits_ret.
Qed.

Lemma emits_nowMs (env : Env) (P : Event -> Prop) :
  (forall t, P (EvNow t)) -> emits P (nowMs env).
Proof. intros H w. exists [EvNow (clock env (trace w))]. simpl. auto. Qed.

Lemma emits_sleep (P : Event -> Prop) (ms : Z) :
  P (EvSleep ms) -> emits P (sleep ms).
Proof. intros H w. exists [EvSleep ms]. simpl. auto. Qed.

Lemma emits_rpcCall (env : Env) (P : Event -> Prop) (url : string) (m : RpcMethod) :
  (forall r, P (EvRpc url m r)) -> emits P (rpcCall env url m).
Proof.
  intros H w. exists [EvRpc url m (rpc env (trace w) url m)].
  unfold rpcCall. destruct (rpc env (trace w) url m); simpl; auto.
Qed.

Lemma emits_rotate {A} (P : Event -> Prop) (fn : string -> M A) (urls : list string) :
  (forall url, emits P (fn url)) -> (forall ms, P (EvSleep ms)) ->
  forall left n lastErr, emits P (rotate fn urls left n lastErr).
Proof.
  intros Hf Hs. induction left as [|left IH]; intros n lastErr; simpl.
  - apply emits_throw.
  - apply emits_bind; [apply emits_attempt, Hf|].
    intros [a | e]; [apply emits_ret|].
    apply emits_bind; [|intros; apply IH].
    destruct (isTransient e); apply emits_sleep, Hs.
Qed.

Lemma emits_withRpcRotation {A} (env : Env) (P : Event -> Prop) (fn : string -> M A) :
  (forall url, emits P (fn url)) -> (forall ms, P (EvSleep ms)) ->
  emits P (withRpcRotation env fn).
Proof. intros. now apply emits_rotate. Qed.

Lemma emits_pastDeadline (env : Env) (P : Event -> Prop) (deadlineMs : Z) :
  (forall t, P (EvNow t)) -> emits P (pastDeadline env deadlineMs).
Proof.
  intros H. unfold pastDeadline. destruct (deadlineMs =? 0); [apply emits_ret|].
  apply emits_bind; [now apply emits_nowMs | intros; apply emits_ret].
Qed.

Lemma emits_getLatestBlock (env : Env) (P : Event -> Prop) :
  (forall url r, P (EvRpc url eth_blockNumber r)) -> (forall ms, P (EvSleep ms)) ->
  emits P (getLatestBlock env).
Proof.
  intros Hr Hs. apply emits_bind.
  - apply emits_withRpcRotation; auto. intros; now apply emits_rpcCall.
  - intros; apply emits_lift.
Qed.

Lemma emits_if {A} (P : Event -> Prop) (c : bool) (a b : M A) :
  emits P a -> emits P b -> emits P (if c then a else b).
Proof. now destruct c. Qed.

Lemma emits_fetchScanPage (env : Env) (P : Event -> Prop) (f t page : Z) :
  (forall r, P (EvScanLogs f t page r)) -> emits P (fetchScanPage env f t page).
Proof.
  intros H w. exists [EvScanLogs f t page (scanLogs env (trace w) f t page)].
  unfold fetchScanPage. destruct (scanLogs env (trace w) f t page); simpl; auto.
Qed.

Section ScanTraces.

Variable env : Env.
Variable P : Event -> Prop.
Hypothesis P_now : forall t, P (EvNow t).
Hypothesis P_sleep : forall ms, P (EvSleep ms).

Lemma emits_scanPages (fromBlock toBlock deadlineMs : Z) :
  (forall page r, P (EvScanLogs fromBlock toBlock page r)) ->
  forall fuel page out,
    emits P (scanPages env fuel fromBlock toBlock deadlineMs page out).
Proof.
  intros Hp. induction fuel as [|fuel IH]; intros page out; simpl.
  - apply emits_outOfFuel.
  - apply emits_bind; [now apply emits_pastDeadline|].
    intros past. apply emits_if; [apply emits_throw|].
    apply emits_bind; [now apply emits_fetchScanPage|].
    intros b. repeat apply emits_if;
      try apply emits_throw; try apply emits_ret;
      (apply emits_bind; [now apply emits_sleep | intros; apply IH]).
Qed.

Lemma emits_Rollover_scanPages (fromBlock toBlock deadlineMs : Z) :
  (forall page r, P (EvScanLogs fromBlock toBlock page r)) ->
  forall fuel page out,
    emits P (Rollover.scanPages env fuel fromBlock toBlock deadlineMs page out).
Proof.
  intros Hp. induction fuel as [|fuel IH]; intros page out; simpl.
  - apply emits_outOfFuel.
  - apply emits_bind; [now apply emits_pastDeadline|].
    intros past. apply emits_if; [apply emits_ret|].
    apply emits_bind; [now apply emits_fetchScanPage|].
    intros b. repeat apply emits_if;
      try apply emits_throw; try apply emits_ret;
      (apply emits_bind; [now apply emits_sleep | intros; apply IH]).
Qed.

Lemma shrink_nonneg (step hardMinStep : Z) :
  0 <= step -> 0 <= hardMinStep -> 0 <= shrink step hardMinStep.
Proof.
  intros Hs Hh. unfold shrink. destruct (_ <? _); auto.
  apply Z.quot_pos; lia.
Qed.

Lemma emits_getLogs (from0 from to : Z) :
  (forall url f t r, from0 <= f -> P (EvRpc url (eth_getLogs f t) r)) ->
  from0 <= from ->
  emits P (attempt (withRpcRotation env (fun url => rpcCall env url (eth_getLogs from to)))).
Proof.
  intros Hr Hf. apply emits_attempt, emits_withRpcRotation; auto.
  intros url. apply emits_rpcCall. auto.
Qed.

(** What [scanChunks] does once a chunk request has ended, by answer or
    by error. *)
Lemma emits_after_chunk (from0 toBlock hardMinStep deadlineMs : Z) (fuel : nat) :
  0 <= hardMinStep ->
  (forall from step logsOut lastScanned,
      from0 <= from -> 0 <= step ->
      emits P (scanChunks env fuel toBlock hardMinStep deadlineMs
                          from step logsOut lastScanned)) ->
  forall from to step logsOut lastScanned (o : res RpcResult),
    from0 <= from -> from <= to -> 0 <= step ->
    emits P
      match o with
      | Ok result =>
          scanChunks env fuel toBlock hardMinStep deadlineMs
                     (to + 1) step (logsOut ++ logsOf result)%list to
      | Raise e =>
          let msg := Js.toLowerCase (message e) in
          if isFreeTier msg then throw e
          else if isRangeTooLarge msg then
            bind (sleep 120) (fun _ =>
            scanChunks env fuel toBlock hardMinStep deadlineMs
                       from (shrink step hardMinStep) logsOut lastScanned)
          else if isTransient e then
            bind (sleep 250) (fun _ =>
            scanChunks env fuel toBlock hardMinStep deadlineMs
                       from step logsOut lastScanned)
          else
            bind (sleep 120) (fun _ =>
            scanChunks env fuel toBlock hardMinStep deadlineMs
                       from (shrink step hardMinStep) logsOut lastScanned)
      end.
Proof.
  intros Hh IH from to step logsOut lastScanned [result | e] Hf Ht Hs.
  - apply IH; lia.
  - pose proof (shrink_nonneg step hardMinStep Hs Hh).
    cbv zeta. repeat apply emits_if; try apply emits_throw;
      (apply emits_bind; [now apply emits_sleep | intros; now apply IH]).
Qed.

Lemma emits_scanChunks (from0 toBlock hardMinStep deadlineMs : Z) :
  (forall url f t r, from0 <= f -> P (EvRpc url (eth_getLogs f t) r)) ->
  0 <= hardMinStep ->
  forall fuel from step logsOut lastScanned,
    from0 <= from -> 0 <= step ->
    emits P (scanChunks env fuel toBlock hardMinStep deadlineMs
                        from step logsOut lastScanned).
Proof.
  intros Hr Hh. induction fuel as [|fuel IH]; intros from step logsOut lastScanned Hf Hs; simpl.
  - apply emits_outOfFuel.
  - destruct (Z.ltb_spec toBlock from); [apply emits_ret|].
    apply emits_bind; [now apply emits_pastDeadline|].
    intros past. apply emits_if; [apply emits_ret|].
    apply emits_bind; [now apply (emits_getLogs from0)|].
    intros o. apply (emits_after_chunk from0); auto.
    destruct (_ <? _); lia.
Qed.

Lemma emits_Rollover_scanChunks (from0 toBlock hardMinStep deadlineMs : Z) :
  (forall url f t r, from0 <= f -> P (EvRpc url (eth_getLogs f t) r)) ->
  0 <= hardMinStep ->
  forall fuel from step logsOut,
    from0 <= from -> 0 <= step ->
    emits P (Rollover.scanChunks env fuel toBlock hardMinStep deadlineMs
                                 from step logsOut).
Proof.
  intros Hr Hh. induction fuel as [|fuel IH]; intros from step logsOut Hf Hs; simpl.
  - apply emits_outOfFuel.
  - destruct (Z.ltb_spec toBlock from); [apply emits_ret|].
    apply emits_bind; [now apply emits_pastDeadline|].
    intros past. apply emits_if; [apply emits_ret|].
    apply emits_bind; [now apply (emits_getLogs from0)|].
    intros [result | e].
    + apply IH; auto. destruct (_ <? _); lia.
    + pose proof (shrink_nonneg step hardMinStep Hs Hh).
      repeat apply emits_if; try apply emits_throw;
        (apply emits_bind; [now apply emits_sleep | intros; now apply IH]).
Qed.

End ScanTraces.

(** ** The chunked scan *)

Lemma bind_Ret_inv {A B} (m : M A) (k : A -> M B) (w w' : World) (b : B) :
  bind m k w = (Ret b, w') ->
  exists a w1, m w = (Ret a, w1) /\ k a w1 = (Ret b, w').
Proof.
  unfold bind. destruct (m w) as [[a | e |] w1]; intros H; try discriminate.
  eauto.
Qed.

Lemma chunksOf_app (n2 n1 : list Event) :
  chunksOf (n2 ++ n1) = (chunksOf n1 ++ chunksOf n2)%list.
Proof.
  induction n2 as [|ev n2 IH]; simpl.
  - now rewrite app_nil_r.
  - now rewrite IH, app_assoc.
Qed.

Lemma pastDeadline_run (env : Env) (deadlineMs : Z) (w : World) :
  exists b new w1,
    pastDeadline env deadlineMs w = (Ret b, w1)
    /\ trace w1 = (new ++ trace w)%list
    /\ chunksOf new = []
    /\ (b = true -> deadlineMs <> 0 /\ exists t, new = [EvNow t] /\ deadlineMs < t).
Proof.
  unfold pastDeadline. destruct (Z.eqb_spec deadlineMs 0) as [E | E].
  - exists false, [], w. repeat split; auto; discriminate.
  - exists (deadlineMs <? clock env (trace w)), [EvNow (clock env (trace w))].
    eexists. unfold bind, nowMs, ret. repeat split; auto.
    exists (clock env (trace w)). split; auto. now apply Z.ltb_lt.
Qed.

Lemma bind_Ret {A B} (m : M A) (k : A -> M B) (w w1 : World) (a : A) :
  m w = (Ret a, w1) -> bind m k w = k a w1.
Proof. intros E. unfold bind. now rewrite E. Qed.

Lemma attempt_rpcCall (env : Env) (url : string) (m : RpcMethod) (w : World) :
  exists o,
    attempt (rpcCall env url m) w
    = (Ret o, record (EvRpc url m (rpc env (trace w) url m)) w)
    /\ match o with
       | Ok r => rpc env (trace w) url m = RpcOk r
       | Raise _ => forall r, rpc env (trace w) url m <> RpcOk r
       end.
Proof.
  unfold attempt, try_catch, bind, rpcCall, ret.
  destruct (rpc env (trace w) url m) eqn:R; eexists; (split; [reflexivity|]);
    simpl; congruence.
Qed.

Lemma rotate_getLogs (env : Env) (urls : list string) (from to : Z) :
  forall left n lastErr w,
  exists new,
    trace (snd (rotate (fun url => rpcCall env url (eth_getLogs from to))
                       urls left n lastErr w)) = (new ++ trace w)%list
    /\ match fst (rotate (fun url => rpcCall env url (eth_getLogs from to))
                         urls left n lastErr w) with
       | Ret r => chunksOf new = [mkChunk from to (logsOf r)]
       | Throw _ => chunksOf new = []
       | OutOfFuel => False
       end.
Proof.
  induction left as [|left IH]; intros n lastErr w.
  - exists []. simpl. auto.
  - cbn [rotate]. set (url := nth _ urls "").
    destruct (attempt_rpcCall env url (eth_getLogs from to) w) as (o & E & Ho).
    rewrite (bind_Ret _ _ _ _ _ E). destruct o as [r | e].
    + eexists [_]. simpl. split; [reflexivity|]. now rewrite Ho.
    + set (ms := if isTransient e then 250 * (n + 1) else 60).
      assert ((if isTransient e then sleep (250 * (n + 1)) else sleep 60) = sleep ms)
        as -> by (unfold ms; now destruct (isTransient e)).
      unfold bind at 1, sleep at 1.
      match goal with
      | |- context [rotate _ _ _ _ _ ?w1] =>
          destruct (IH (n + 1) (Some e) w1) as (new & En & C); set (w2 := w1) in *
      end.
      exists (new ++ [EvSleep ms; EvRpc url (eth_getLogs from to)
                                       (rpc env (trace w) url (eth_getLogs from to))])%list.
      split.
      * rewrite En. unfold w2. simpl. now rewrite <- app_assoc.
      * rewrite chunksOf_app. simpl.
        destruct (rpc env (trace w) url (eth_getLogs from to)) eqn:R;
          try (exfalso; eapply Ho; reflexivity); simpl; exact C.
Qed.

Lemma getLogs_run (env : Env) (from to : Z) (w : World) :
  exists o new w1,
    attempt (withRpcRotation env (fun url => rpcCall env url (eth_getLogs from to))) w
    = (Ret o, w1)
    /\ trace w1 = (new ++ trace w)%list
    /\ chunksOf new = match o with
                      | Ok r => [mkChunk from to (logsOf r)]
                      | Raise _ => []
                      end.
Proof.
  unfold withRpcRotation, attempt, try_catch, bind, ret.
  match goal with
  | |- context [rotate ?f ?u ?l ?n ?e w] =>
      destruct (rotate_getLogs env u from to l n e w) as (new & E & C);
      destruct (rotate f u l n e w) as [[r | err |] w1]
  end; simpl in *; try contradiction; eauto 7.
Qed.

Lemma chunkLogs_cons (c : Chunk) (cs : list Chunk) :
  chunkLogs (c :: cs) = (c_logs c ++ chunkLogs cs)%list.
Proof. reflexivity. Qed.

Lemma sleep_then {A} (ms : Z) (k : M A) (w : World) :
  bind (sleep ms) (fun _ => k) w = k (record (EvSleep ms) w).
Proof. reflexivity. Qed.

Lemma scanChunks_spec (env : Env) (toBlock hardMinStep deadlineMs : Z) :
  forall fuel from step logsOut lastScanned w r w',
    scanChunks env fuel toBlock hardMinStep deadlineMs from step logsOut lastScanned w
    = (Ret r, w') ->
    exists new,
      trace w' = (new ++ trace w)%list
      /\ contiguous from toBlock (chunksOf new)
      /\ logs r = (logsOut ++ chunkLogs (chunksOf new))%list
      /\ lastScannedBlock r = lastTo lastScanned (chunksOf new)
      /\ (complete r = false ->
          deadlineMs <> 0 /\ exists t rest, new = EvNow t :: rest /\ deadlineMs < t)
      /\ (complete r = true ->
          lastScannedBlock r = toBlock \/ (chunksOf new = [] /\ toBlock < from))
      /\ (0 <= step -> 0 <= hardMinStep ->
          Forall (fun c => c_from c <= c_to c) (chunksOf new)).
Proof.
  induction fuel as [|fuel IH]; intros from step logsOut lastScanned w r w' H;
    [discriminate|].
  cbn [scanChunks] in H.
  destruct (Z.ltb_spec toBlock from) as [Hdone | Hmore].
  { injection H as <- <-. exists []. simpl. rewrite app_nil_r.
    repeat split; auto; discriminate. }
  destruct (pastDeadline_run env deadlineMs w) as (past & n1 & w1 & E1 & T1 & C1 & D1).
  rewrite (bind_Ret _ _ _ _ _ E1) in H. destruct past.
  { injection H as <- <-. exists n1. rewrite C1. simpl. rewrite app_nil_r.
    destruct (D1 eq_refl) as (Hd & t & -> & Ht).
    repeat split; eauto; discriminate. }
  clear D1. set (to := if toBlock <? from + step then toBlock else from + step) in *.
  assert (to <= toBlock) as Hto by (unfold to; destruct (Z.ltb_spec toBlock (from + step)); lia).
  destruct (getLogs_run env from to w1) as (o & n2 & w2 & E2 & T2 & C2).
  rewrite (bind_Ret _ _ _ _ _ E2) in H.
  assert (forall step' w3 n3,
             trace w3 = (n3 ++ trace w2)%list -> chunksOf n3 = [] ->
             (0 <= step -> 0 <= hardMinStep -> 0 <= step') ->
             o = Raise (match o with Raise e => e | _ => Error "" end) ->
             scanChunks env fuel toBlock hardMinStep deadlineMs from step'
                        logsOut lastScanned w3 = (Ret r, w') ->
             exists new,
               trace w' = (new ++ trace w)%list
               /\ contiguous from toBlock (chunksOf new)
               /\ logs r = (logsOut ++ chunkLogs (chunksOf new))%list
               /\ lastScannedBlock r = lastTo lastScanned (chunksOf new)
               /\ (complete r = false ->
                   deadlineMs <> 0 /\ exists t rest, new = EvNow t :: rest /\ deadlineMs < t)
               /\ (complete r = true ->
                   lastScannedBlock r = toBlock \/ (chunksOf new = [] /\ toBlock < from))
               /\ (0 <= step -> 0 <= hardMinStep ->
                   Forall (fun c => c_from c <= c_to c) (chunksOf new))) as Retry.
  { intros step' w3 n3 T3 C3 Hs' Ho H3.
    destruct (IH _ _ _ _ _ _ _ H3) as (n4 & T4 & K & L & S & F & G & B).
    exists (n4 ++ n3 ++ n2 ++ n1)%list.
    assert (chunksOf (n4 ++ n3 ++ n2 ++ n1) = chunksOf n4) as EC.
    { rewrite !chunksOf_app, C1, C3, C2, Ho. reflexivity. }
    rewrite EC. split; [rewrite T4, T3, T2, T1; now rewrite !app_assoc|].
    repeat (split; [assumption|]). split; [|auto].
    intros Hf. destruct (F Hf) as (Hd & t & rest & -> & Ht).
    split; [assumption|]. simpl. eauto. }
  destruct o as [result | e].
  - clear Retry.
    destruct (IH _ _ _ _ _ _ _ H) as (n3 & T3 & K & L & S & F & G & B).
    exists (n3 ++ n2 ++ n1)%list.
    assert (chunksOf (n3 ++ n2 ++ n1) = mkChunk from to (logsOf result) :: chunksOf n3) as EC.
    { rewrite !chunksOf_app, C1, C2. reflexivity. }
    rewrite EC. split; [rewrite T3, T2, T1; now rewrite !app_assoc|].
    split; [simpl; auto|].
    split; [rewrite L, chunkLogs_cons; simpl; now rewrite app_assoc|].
    split; [exact S|].
    split; [|split].
    + intros Hf. destruct (F Hf) as (Hd & t & rest & -> & Ht).
      split; [assumption|]. simpl. eauto.
    + intros Hc. destruct (G Hc) as [? | [E' Hlt]]; [now left|].
      left. rewrite S, E'. simpl. lia.
    + intros Hs Hh. constructor; auto. simpl.
      unfold to. destruct (Z.ltb_spec toBlock (from + step)); lia.
  - destruct (isFreeTier _); [discriminate|].
    destruct (isRangeTooLarge _);
      [|destruct (isTransient e)];
      rewrite sleep_then in H;
      (eapply Retry; [| | | reflexivity | exact H];
       [instantiate (1 := [_]); reflexivity | reflexivity
        | intros; try apply shrink_nonneg; auto]).
Qed.

(** C3.  The RPC chunked scan and the deadline.  At the head of the loop,
    with blocks left to scan, a clock past the deadline makes the scan
    return (not throw) what it has so far, with [complete = false].  And
    whenever [fetchLogsRange] returns [complete = false], its last
    interaction was a clock reading past the deadline, the chunks it got
    answered before tile the range from [fromBlock] on without a gap, its
    logs are the logs of those chunks, and [lastScannedBlock] is the upper
    bound of the last of them; when no chunk was answered it is
    [fromBlock - 1] for a positive [fromBlock] and 0 otherwise. *)
Theorem fetchLogsRange_deadline (env : Env)
  (fromBlock toBlock stepInitial hardMinStep deadlineMs : Z) :
  (forall fuel from step logsOut lastScanned w,
      from <= toBlock -> deadlineMs <> 0 -> deadlineMs < clock env (trace w) ->
      scanChunks env (S fuel) toBlock hardMinStep deadlineMs
                 from step logsOut lastScanned w
      = (Ret (mkScan logsOut lastScanned false),
         record (EvNow (clock env (trace w))) w))
  /\ (forall fuel w r w',
         fetchLogsRange env fuel fromBlock toBlock stepInitial hardMinStep deadlineMs w
         = (Ret r, w') ->
         complete r = false ->
         exists t done,
           trace w' = (EvNow t :: done ++ trace w)%list
           /\ deadlineMs < t
           /\ contiguous fromBlock toBlock (chunksOf done)
           /\ logs r = chunkLogs (chunksOf done)
           /\ lastScannedBlock r
              = lastTo (if 0 <? fromBlock then fromBlock - 1 else 0) (chunksOf done)).
Proof.
  split.
  - intros fuel from step logsOut lastScanned w Hf Hd Ht.
    cbn [scanChunks]. destruct (Z.ltb_spec toBlock from); [lia|].
    unfold pastDeadline. destruct (Z.eqb_spec deadlineMs 0); [contradiction|].
    unfold bind, nowMs, ret. cbn.
    destruct (Z.ltb_spec deadlineMs (clock env (trace w))); [reflexivity | lia].
  - intros fuel w r w' H Hc. unfold fetchLogsRange in H.
    destruct (scanChunks_spec _ _ _ _ _ _ _ _ _ _ _ _ H)
      as (new & T & K & L & S & F & _).
    destruct (F Hc) as (_ & t & done & -> & Ht).
    exists t, done. simpl in K, L, S. rewrite app_nil_r in K, L, S.
    repeat split; auto.
Qed.

Lemma fetchLogsRange_deadline_witness :
  exists r w',
    fetchLogsRange Sample.tickingEnv 5 100 500 220 900 1500 Sample.world0 = (Ret r, w')
    /\ complete r = false
    /\ lastScannedBlock r = 320
    /\ exists t done,
         trace w' = (EvNow t :: done ++ trace Sample.world0)%list
         /\ 1500 < t
         /\ contiguous 100 500 (chunksOf done)
         /\ logs r = chunkLogs (chunksOf done)
         /\ lastScannedBlock r = lastTo (if 0 <? 100 then 100 - 1 else 0) (chunksOf done).
Proof.
  eexists. eexists. split; [vm_compute; reflexivity|].
  split; [reflexivity|]. split; [reflexivity|].
  apply (proj2 (fetchLogsRange_deadline Sample.tickingEnv 100 500 220 900 1500)
               5%nat Sample.world0); reflexivity.
Defined.

(** A scan from block 0 that meets the deadline at once, before any chunk:
    it reports [lastScannedBlock = 0], which is not [fromBlock - 1]. *)
Lemma fetchLogsRange_from_zero :
  fetchLogsRange Sample.tickingEnv 5 0 500 8000 900 (-1) Sample.world0
  = (Ret (mkScan [] 0 false), record (EvNow 0) Sample.world0)
  /\ lastScannedBlock (mkScan [] 0 false) <> 0 - 1.
Proof.
  split; [vm_compute; reflexivity | simpl; discriminate].
Qed.

(** ** Incremental update of a reused state *)

Lemma try_catch_Ret_inv {A} (m : M A) (h : JsError -> M A) (w w' : World) (a : A) :
  try_catch m h w = (Ret a, w') ->
  m w = (Ret a, w')
  \/ exists e w1, m w = (Throw e, w1) /\ h e w1 = (Ret a, w').
Proof.
  unfold try_catch. destruct (m w) as [[x | e |] w1]; intros H; try discriminate; eauto.
Qed.

Lemma lift_Ret_inv {A} (r : res A) (w w' : World) (a : A) :
  lift r w = (Ret a, w') -> r = Ok a /\ w' = w.
Proof.
  destruct r; simpl; unfold ret, throw; intros H; inversion H; auto.
Qed.

Lemma emits_at {A} (P : Event -> Prop) (m : M A) (w w' : World) (o : Outcome A) :
  emits P m -> m w = (o, w') ->
  exists new, trace w' = (new ++ trace w)%list /\ Forall P new.
Proof.
  intros H E. destruct (H w) as (new & T & F). rewrite E in T. eauto.
Qed.

Lemma lastTo_lower (lo toBlock : Z) (cs : list Chunk) :
  forall from init,
    contiguous from toBlock cs ->
    Forall (fun c => c_from c <= c_to c) cs ->
    lo <= init -> lo <= from -> lo <= lastTo init cs.
Proof.
  unfold lastTo. induction cs as [|c cs IH]; intros from init K F Hi Hf; simpl; auto.
  destruct K as (E & _ & K). inversion F; subst.
  eapply IH; eauto; lia.
Qed.

Lemma emits_fetchLogsRange (env : Env) (fuel : nat) (from toBlock deadlineMs : Z) :
  emits (fetchesFrom from) (fetchLogsRange env fuel from toBlock 8000 900 deadlineMs).
Proof.
  apply (emits_scanChunks env (fetchesFrom from)) with (from0 := from);
    simpl; auto; lia.
Qed.

Lemma emits_fetchLogsViaBaseScan (env : Env) (fuel : nat) (from toBlock deadlineMs : Z) :
  emits (fetchesFrom from) (fetchLogsViaBaseScan env fuel from toBlock deadlineMs).
Proof.
  apply (emits_scanPages env (fetchesFrom from)); simpl; auto.
Qed.

Lemma firstFetch_app (a b : list Event) :
  firstFetch (a ++ b)
  = match firstFetch a with Some f => Some f | None => firstFetch b end.
Proof.
  induction a as [|ev a IH]; simpl; auto.
  destruct (fetchStart ev); auto.
Qed.

Lemma startsAt_app (from : Z) (a b : list Event) :
  startsAt from a -> startsAt from b -> startsAt from (a ++ b).
Proof.
  unfold startsAt. rewrite firstFetch_app. intros [-> | ->]; auto.
Qed.

Lemma startsAt_Forall (from : Z) (l : list Event) :
  Forall (fun ev => fetchStart ev = None \/ fetchStart ev = Some from) l ->
  startsAt from l.
Proof.
  unfold startsAt. induction 1 as [|ev l [E | E] _ IH]; simpl; auto; rewrite E; auto.
Qed.

Lemma startsAt_quiet (from : Z) (l : list Event) :
  Forall (fun ev => fetchStart ev = None) l -> startsAt from l.
Proof.
  intros H. apply startsAt_Forall. eapply Forall_impl; [|exact H]. auto.
Qed.

(** The first interaction of a rotation is a request. *)
Lemma rotate_first (env : Env) (m : RpcMethod) (urls : list string)
  (left : nat) (n : Z) (lastErr : option JsError) (w : World) :
  exists later url r,
    trace (snd (rotate (fun url => rpcCall env url m) urls (S left) n lastErr w))
    = (later ++ EvRpc url m r :: trace w)%list.
Proof.
  cbn [rotate].
  match goal with |- context [nth ?i ?l ""] => set (url := nth i l "") end.
  destruct (attempt_rpcCall env url m w) as (a & E & _).
  rewrite (bind_Ret _ _ _ _ _ E).
  match goal with
  | |- context [snd (?k ?w1)] =>
      assert (emits (fun _ => True) k) as Hk
  end.
  { destruct a as [r | e]; [apply emits_ret|].
    apply emits_bind; [destruct (isTransient e); now apply emits_sleep|].
    intros _. apply emits_rotate; auto. intros; now apply emits_rpcCall. }
  destruct (Hk (record (EvRpc url m (rpc env (trace w) url m)) w)) as (later & T & _).
  rewrite T. simpl. eauto.
Qed.

(** The first interaction of a chunk request is the request itself. *)
Lemma getLogs_first (env : Env) (from to : Z) (w w2 : World) (o : Outcome (res RpcResult)) :
  attempt (withRpcRotation env (fun url => rpcCall env url (eth_getLogs from to))) w
  = (o, w2) ->
  exists later url r,
    trace w2 = (later ++ EvRpc url (eth_getLogs from to) r :: trace w)%list.
Proof.
  intros H.
  assert (trace w2
          = trace (snd (withRpcRotation env
                          (fun url => rpcCall env url (eth_getLogs from to)) w))) as ->.
  { revert H. unfold attempt, try_catch, bind, ret.
    destruct (withRpcRotation env _ w) as [[a | e |] w']; intros [= _ <-]; reflexivity. }
  apply rotate_first.
Qed.

(** The first request for logs of the chunked scan, if it makes any,
    starts at its first block. *)
Lemma scanChunks_startsAt (env : Env) (toBlock hardMinStep deadlineMs : Z)
  (fuel : nat) (from step : Z) (logsOut : list Log) (lastScanned : Z) (w : World) :
  0 <= hardMinStep -> 0 <= step ->
  exists new,
    trace (snd (scanChunks env fuel toBlock hardMinStep deadlineMs
                           from step logsOut lastScanned w)) = (new ++ trace w)%list
    /\ startsAt from (List.rev new).
Proof.
  intros Hh Hs. destruct fuel as [|fuel]; [exists []; split; [reflexivity | now left]|].
  cbn [scanChunks].
  destruct (Z.ltb_spec toBlock from); [exists []; split; [reflexivity | now left]|].
  destruct (pastDeadline_run env deadlineMs w) as (past & n1 & w1 & E1 & T1 & _ & _).
  destruct (emits_at (fun ev => fetchStart ev = None) _ _ _ _
              (emits_pastDeadline env _ deadlineMs (fun _ => eq_refl)) E1)
    as (n1' & T1' & F1).
  rewrite T1 in T1'. apply app_inv_tail in T1'. subst n1'.
  rewrite (bind_Ret _ _ _ _ _ E1). destruct past.
  { exists n1. split; [exact T1|]. apply startsAt_quiet. now apply Forall_rev. }
  set (to := if toBlock <? from + step then toBlock else from + step).
  assert (from <= to) as Hto
    by (unfold to; destruct (Z.ltb_spec toBlock (from + step)); lia).
  destruct (getLogs_run env from to w1) as (o & n2 & w2 & E2 & T2 & _).
  destruct (getLogs_first env from to w1 w2 _ E2) as (later & url & r & T2').
  rewrite (bind_Ret _ _ _ _ _ E2).
  match goal with
  | |- context [snd (?k w2)] =>
      assert (emits (fun _ => True) k) as Hk
  end.
  { apply (emits_after_chunk env (fun _ => True) (fun _ => I) from); auto; try lia.
    intros. apply (emits_scanChunks env (fun _ => True)) with (from0 := from); auto. }
  destruct (Hk w2) as (n3 & T3 & _).
  exists (n3 ++ (later ++ [EvRpc url (eth_getLogs from to) r]) ++ n1)%list. split.
  - rewrite T3, T2', T1. rewrite <- !app_assoc. reflexivity.
  - assert (firstFetch (List.rev n1) = None) as N1.
    { clear -F1. apply Forall_rev in F1. induction F1 as [|ev l E _ IH]; simpl; auto.
      now rewrite E. }
    replace (List.rev (n3 ++ (later ++ [EvRpc url (eth_getLogs from to) r]) ++ n1)%list)
      with (List.rev n1 ++ (EvRpc url (eth_getLogs from to) r :: List.rev later)
                        ++ List.rev n3)%list
      by (rewrite !rev_app_distr; simpl; now rewrite <- !app_assoc).
    right. rewrite firstFetch_app, N1. reflexivity.
Qed.

(** The scan of [incrementalUpdate]: RPC chunks first, the explorer when
    they throw. *)
Lemma incremental_scan (env : Env) (fuel : nat) (b latest deadlineMs : Z)
  (w w' : World) (r : Scan) :
  b + 1 <= latest ->
  try_catch (fetchLogsRange env fuel (b + 1) latest 8000 900 deadlineMs)
            (fun _ => bind (fetchLogsViaBaseScan env fuel (b + 1) latest deadlineMs)
                           (fun logs => ret (mkScan logs latest true))) w
  = (Ret r, w') ->
  b <= (if complete r then latest else lastScannedBlock r)
  /\ exists new,
       trace w' = (new ++ trace w)%list
       /\ Forall (fetchesFrom (b + 1)) new
       /\ startsAt (b + 1) (List.rev new).
Proof.
  intros Hl H. split.
  - apply try_catch_Ret_inv in H. destruct H as [H | (e & w1 & _ & H)].
    + destruct (complete r) eqn:C; [lia|].
      unfold fetchLogsRange in H.
      destruct (scanChunks_spec _ _ _ _ _ _ _ _ _ _ _ _ H) as (new & _ & K & _ & S & _ & _ & B).
      rewrite S. eapply lastTo_lower; eauto; try lia.
      * apply B; lia.
      * unfold blockBefore. destruct (Z.ltb_spec 0 (b + 1)); lia.
    + apply bind_Ret_inv in H. destruct H as (l & w2 & _ & H).
      injection H as <- _. simpl. lia.
  - destruct (scanChunks_startsAt env latest 900 deadlineMs fuel (b + 1) 8000 []
                (blockBefore (b + 1)) w ltac:(lia) ltac:(lia)) as (na & Ta & Sa).
    fold (fetchLogsRange env fuel (b + 1) latest 8000 900 deadlineMs) in Ta.
    destruct (emits_fetchLogsRange env fuel (b + 1) latest deadlineMs w) as (na' & Ta' & Fa).
    rewrite Ta in Ta'. apply app_inv_tail in Ta'. subst na'.
    apply try_catch_Ret_inv in H. destruct H as [H | (e & w1 & H & K)];
      rewrite H in Ta; simpl in Ta.
    + exists na. auto.
    + apply bind_Ret_inv in K. destruct K as (l & w2 & K & R). injection R as _ <-.
      eapply emits_at in K;
        [|apply (emits_scanPages env
                   (fun ev => (fetchStart ev = None \/ fetchStart ev = Some (b + 1))
                              /\ fetchesFrom (b + 1) ev)); simpl; auto].
      destruct K as (nb & Tb & Fb).
      exists (nb ++ na)%list. split; [now rewrite Tb, Ta, app_assoc|]. split.
      * apply Forall_app. split; [|exact Fa].
        eapply Forall_impl; [|exact Fb]. intros ev [_ Q]; exact Q.
      * rewrite rev_app_distr. apply startsAt_app; [exact Sa|].
        apply startsAt_Forall, Forall_rev.
        eapply Forall_impl; [|exact Fb]. intros ev [Q _]; exact Q.
Qed.

Lemma bind_ext {A B} (m : M A) (k1 k2 : A -> M B) (w : World) :
  (forall a w1, k1 a w1 = k2 a w1) -> bind m k1 w = bind m k2 w.
Proof.
  intros H. unfold bind. destruct (m w) as [[a | e |] w1]; auto.
Qed.

Lemma incrementalUpdate_reuse (env : Env) (fuel : nat) (st : State)
  (deadlineMs b : Z) (w : World) :
  lastProcessedBlock st = Some b -> b <> 0 ->
  currentWeekMs st = weekStartUtcMs (clock env (trace w)) ->
  STATE_SCHEMA_VERSION <= schemaVersion st ->
  incrementalUpdate env fuel (Some st) deadlineMs w
  = bind (getLatestBlock env) (fun latest => reuse env fuel st b latest deadlineMs)
         (record (EvNow (clock env (trace w))) w).
Proof.
  intros Hb Hz Hw Hv. unfold incrementalUpdate.
  rewrite (bind_Ret (nowMs env) _ w (record (EvNow (clock env (trace w))) w)
                    (clock env (trace w)) eq_refl).
  apply bind_ext. intros latest w1.
  unfold reuse. rewrite Hb, <- Hw. cbn [truthyBlock negb].
  destruct (Z.eqb_spec b 0); [contradiction|].
  rewrite Z.eqb_refl. destruct (Z.ltb_spec (schemaVersion st) STATE_SCHEMA_VERSION); [lia|].
  reflexivity.
Qed.

(** C4.  When [incrementalUpdate] reuses a state (same current week,
    current schema version, [lastProcessedBlock] present) and returns, the
    cursor of the returned state is at or beyond the cursor [b] it was
    given; the first request for logs it makes, if any, starts at [b + 1];
    and every request for logs starts at [b + 1] (explorer) or at a chunk
    of the range that starts at [b + 1] (RPC scan): no block at or below
    the cursor is requested again, and there is no time-to-block lookup. *)
Theorem incrementalUpdate_cursor_advances (env : Env) (fuel : nat) (st st' : State)
  (deadlineMs b : Z) (w w' : World) :
  lastProcessedBlock st = Some b -> b <> 0 ->
  currentWeekMs st = weekStartUtcMs (clock env (trace w)) ->
  STATE_SCHEMA_VERSION <= schemaVersion st ->
  incrementalUpdate env fuel (Some st) deadlineMs w = (Ret st', w') ->
  (exists b', lastProcessedBlock st' = Some b' /\ b <= b')
  /\ exists new,
       trace w' = (new ++ trace w)%list
       /\ Forall (fetchesFrom (b + 1)) new
       /\ startsAt (b + 1) (List.rev new).
Proof.
  intros Hb Hz Hw Hv H.
  rewrite (incrementalUpdate_reuse env fuel st deadlineMs b w Hb Hz Hw Hv) in H.
  apply bind_Ret_inv in H. destruct H as (latest & w1 & G & H).
  destruct (emits_at (fun ev => fetchStart ev = None /\ fetchesFrom (b + 1) ev) _ _ _ _
              (emits_getLatestBlock env _ (fun _ _ => conj eq_refl I)
                                    (fun _ => conj eq_refl I)) G)
    as (n1 & T1 & F).
  assert (Forall (fetchesFrom (b + 1)) n1) as F1
    by (eapply Forall_impl; [|exact F]; intros ev [_ Q]; exact Q).
  assert (Forall (fun ev => fetchStart ev = None) n1) as N1
    by (eapply Forall_impl; [|exact F]; intros ev [Q _]; exact Q).
  clear F.
  simpl in T1. unfold reuse in H.
  destruct (Z.ltb_spec latest (b + 1)) as [Hlt | Hge].
  - apply bind_Ret_inv in H. destruct H as (t & w2 & N & H).
    injection N as <- <-. injection H as <- <-. split.
    + exists b. split; [exact Hb | lia].
    + exists (EvNow (clock env (trace w1)) :: n1 ++ [EvNow (clock env (trace w))])%list.
      split; [simpl; rewrite T1, <- app_assoc; reflexivity|]. split.
      * constructor; [exact I|]. apply Forall_app. split; auto. repeat constructor.
      * apply startsAt_quiet, Forall_rev.
        constructor; [reflexivity|]. apply Forall_app. split; [exact N1|].
        repeat constructor.
  - apply bind_Ret_inv in H. destruct H as (r & w2 & S & H).
    apply bind_Ret_inv in H. destruct H as (weeks1 & w3 & L & H).
    apply lift_Ret_inv in L. destruct L as [_ ->].
    apply bind_Ret_inv in H. destruct H as (t & w4 & N & H).
    injection N as <- <-. injection H as <- <-.
    destruct (incremental_scan env fuel b latest deadlineMs w1 w2 r Hge S)
      as (Hmono & n2 & T2 & F2 & S2).
    split.
    + eexists. split; [reflexivity | exact Hmono].
    + exists (EvNow (clock env (trace w2)) :: n2 ++ n1 ++ [EvNow (clock env (trace w))])%list.
      split; [simpl; rewrite T2, T1, <- !app_assoc; reflexivity|]. split.
      * constructor; [exact I|]. rewrite !Forall_app. repeat split; auto.
        repeat constructor.
      * change (EvNow (clock env (trace w2)) :: n2 ++ n1 ++ [EvNow (clock env (trace w))])%list
          with ([EvNow (clock env (trace w2))] ++ n2 ++ n1 ++ [EvNow (clock env (trace w))])%list.
        rewrite !rev_app_distr, <- !app_assoc.
        repeat apply startsAt_app; try (now left); auto.
        apply startsAt_quiet, Forall_rev. exact N1.
Qed.

Lemma incrementalUpdate_cursor_advances_witness :
  exists st' w',
    incrementalUpdate Sample.stillEnv 5 (Some (Sample.stateAt 90)) Sample.deadline0
                      Sample.world0 = (Ret st', w')
    /\ lastProcessedBlock st' = Some 100
    /\ weeks st' = [mkWeek Sample.week0 [(Sample.addr1, 12)]; mkWeek Sample.weekM1 []]
    /\ (exists b', lastProcessedBlock st' = Some b' /\ 90 <= b')
    /\ exists new,
         trace w' = (new ++ trace Sample.world0)%list
         /\ Forall (fetchesFrom (90 + 1)) new
         /\ startsAt (90 + 1) (List.rev new).
Proof.
  eexists. eexists. split; [vm_compute; reflexivity|].
  split; [reflexivity|]. split; [reflexivity|].
  apply (incrementalUpdate_cursor_advances Sample.stillEnv 5 (Sample.stateAt 90) _
           Sample.deadline0 90 Sample.world0 _);
    try reflexivity; vm_compute; discriminate.
Defined.



(** ** The request orchestrator *)

Lemma storeReleaseLock_run (env : Env) (key : string) (w : World) :
  exists w2,
    storeReleaseLock env key w = (Ret tt, w2)
    /\ (storeConfigured env = true ->
        trace w2 = EvStoreDel key (storeDel env (trace w) key) :: trace w)
    /\ (storeConfigured env = false -> w2 = w).
Proof.
  unfold storeReleaseLock. destruct (storeConfigured env); cbn [negb].
  - unfold try_catch, store_del, ret.
    destruct (storeDel env (trace w) key) eqn:D; eexists;
      (split; [reflexivity|]); split; auto; discriminate.
  - exists w. repeat split; auto; discriminate.
Qed.

Lemma send_status (st : Z) (b : jsobj) (w w' : World) (r : Response) :
  send st b w = (Ret r, w') -> status r = st.
Proof. unfold send. intros [= <- _]. reflexivity. Qed.

Lemma handlerBody_status (env : Env) (fuel : nat) (refresh includeNames : bool)
  (deadlineMs : Z) (w w' : World) (r : Response) :
  handlerBody env fuel refresh includeNames deadlineMs w = (Ret r, w') ->
  status r = 200.
Proof.
  unfold handlerBody. intros H.
  apply bind_Ret_inv in H. destruct H as ([c|] & w1 & _ & H).
  { eapply send_status; eauto. }
  apply bind_Ret_inv in H. destruct H as (gotLock & w2 & _ & H).
  apply bind_Ret_inv in H. destruct H as ([c|] & w3 & _ & H).
  { eapply send_status; eauto. }
  unfold refreshAndRespond in H.
  repeat (apply bind_Ret_inv in H; destruct H as (? & ? & _ & H)).
  eapply send_status; eauto.
Qed.

(** C9.  The handler never throws, and whatever it returns is sent with
    HTTP status 200.  When its [try] block throws an error [e], the
    handler first calls [storeReleaseLock] (with a store configured this
    issues [store.del] on the lock key, whose failure is swallowed) and
    then sends, at status 200, the envelope whose [ok] field is [false]
    and whose [error] is the text of [e]. *)
Theorem handler_error_envelope (env : Env) (fuel : nat) (req : Request) (w : World) :
  (forall r w', handler env fuel req w = (Ret r, w') -> status r = 200)
  /\ (forall e w', handler env fuel req w <> (Throw e, w'))
  /\ (forall e w1,
         handlerBody env fuel (isOne (q_refresh req)) (isOne (q_names req))
                     (clock env (trace w) + MAX_SERVERLESS_MS)
                     (record (EvNow (clock env (trace w))) w) = (Throw e, w1) ->
         exists w2,
           storeReleaseLock env KV_LOCK_KEY w1 = (Ret tt, w2)
           /\ (storeConfigured env = true ->
               trace w2 = EvStoreDel KV_LOCK_KEY (storeDel env (trace w1) KV_LOCK_KEY)
                          :: trace w1)
           /\ (storeConfigured env = false -> w2 = w1)
           /\ handler env fuel req w
              = (Ret (mkResponse 200 (errorBody e)),
                 record (EvSend 200 (errorBody e)) w2)
           /\ JsMap.get (errorBody e) "ok" = Some (JBool false)).
Proof.
  set (w0 := record (EvNow (clock env (trace w))) w).
  set (body := handlerBody env fuel (isOne (q_refresh req)) (isOne (q_names req))
                           (clock env (trace w) + MAX_SERVERLESS_MS)).
  assert (handler env fuel req w
          = try_catch body
              (fun e => bind (try_catch (storeReleaseLock env KV_LOCK_KEY)
                                        (fun _ => ret tt))
                             (fun _ => send 200 (errorBody e))) w0) as ->.
  { unfold handler. now rewrite (bind_Ret (nowMs env) _ w w0 (clock env (trace w)) eq_refl). }
  remember (try_catch body _ w0) as h eqn:Hh.
  unfold try_catch at 1 in Hh.
  destruct (body w0) as [[r0 | e0 |] w1'] eqn:B; cbv beta iota in Hh; subst h.
  - split; [|split].
    + intros r w' [= <- <-]. eapply handlerBody_status; eauto.
    + intros e w' C; discriminate C.
    + intros e w1 C; discriminate C.
  - destruct (storeReleaseLock_run env KV_LOCK_KEY w1') as (w2 & R & Tc & Tn).
    assert (bind (try_catch (storeReleaseLock env KV_LOCK_KEY) (fun _ => ret tt))
                 (fun _ => send 200 (errorBody e0)) w1'
            = (Ret (mkResponse 200 (errorBody e0)), record (EvSend 200 (errorBody e0)) w2))
      as E.
    { unfold bind, try_catch. rewrite R. reflexivity. }
    rewrite E. split; [|split].
    + intros r w' [= <- <-]. reflexivity.
    + intros e w' C; discriminate C.
    + intros e w1 [= <- <-]. exists w2. repeat split; auto.
  - split; [|split].
    + intros r w' C; discriminate C.
    + intros e w' C; discriminate C.
    + intros e w1 C; discriminate C.
Qed.

Lemma handler_error_envelope_witness :
  exists w2,
    handler Sample.downEnv 5 Sample.plainRequest Sample.world0
    = (Ret (mkResponse 200 (errorBody (Error "fetch failed"))),
       record (EvSend 200 (errorBody (Error "fetch failed"))) w2)
    /\ hd_error (trace w2) = Some (EvStoreDel KV_LOCK_KEY (Ok tt)).
Proof.
  destruct (proj2 (proj2 (handler_error_envelope Sample.downEnv 5 Sample.plainRequest
                            Sample.world0)) (Error "fetch failed") _ eq_refl)
    as (w2 & R & Tc & _ & H & _).
  exists w2. split; [exact H|]. rewrite (Tc eq_refl). reflexivity.
Defined.

(** ** Progress metadata *)

Lemma get_in {V} (m : list (string * V)) (k : string) (v : V) :
  JsMap.get m k = Some v -> In (k, v) m.
Proof.
  induction m as [|[k' v'] r IH]; simpl; [discriminate|].
  destruct (String.eqb_spec k' k); [intros [= ->]; subst; auto | auto].
Qed.

Lemma no_flag_no_buckets (meta : jsobj) :
  forallb (fun e => negb (isFlag (snd e))) meta = true -> ~ hasPerBucketFlags meta.
Proof.
  intros H (kc & kp & bc & bp & _ & Gc & _).
  apply get_in in Gc. rewrite forallb_forall in H.
  specialize (H _ Gc). discriminate.
Qed.

(** The payload of a state of [api/leaderboard.js] has no completeness
    flag in its metadata, let alone one per bucket. *)
Lemma payload_meta_without_flags :
  JsMap.get (formatResponsePayload (Sample.stateAt 90) false None) "meta"
  = Some (JObj [("schemaVersion", JNum 4); ("weeklyUsers", JNum 1);
                ("lastWeekUsers", JNum 0); ("lastProcessedBlock", JStr "90");
                ("updatedAt", JNum (Sample.week0 + 500))])
  /\ ~ hasPerBucketFlags
         [("schemaVersion", JNum 4); ("weeklyUsers", JNum 1);
          ("lastWeekUsers", JNum 0); ("lastProcessedBlock", JStr "90");
          ("updatedAt", JNum (Sample.week0 + 500))].
Proof.
  split; [vm_compute; reflexivity|]. apply no_flag_no_buckets. reflexivity.
Qed.

(** C2.  In [api/leaderboard.js] the state carries one progress cursor,
    [lastProcessedBlock], for both week buckets and no completeness flag:
    [serializeState] persists that one cursor, and the metadata of the
    payload consists of [schemaVersion], [weeklyUsers], [lastWeekUsers],
    [lastProcessedBlock] (the text of that cursor) and [updatedAt], none a
    boolean.  A cursor and a completeness flag per bucket exist in the
    revision of schema version 5: there the metadata holds
    [curWeekProcessedBlock], [prevWeekProcessedBlock], [completeCurWeek]
    and [completePrevWeek], each read from a field of its own. *)
Theorem progress_metadata :
  (forall (state : State) (includeNames : bool) (fcMap : option (list (string * string))),
      exists meta,
        JsMap.get (formatResponsePayload state includeNames fcMap) "meta"
        = Some (JObj meta)
        /\ List.map fst meta
           = ["schemaVersion"; "weeklyUsers"; "lastWeekUsers";
              "lastProcessedBlock"; "updatedAt"]
        /\ JsMap.get meta "lastProcessedBlock"
           = Some (optText (blockText (lastProcessedBlock state)))
        /\ ~ hasPerBucketFlags meta
        /\ s_lastProcessedBlock (serializeState state)
           = blockText (lastProcessedBlock state))
  /\ (forall (state : Cursors.State) (curMap prevMap : JsMap) (kind : option string),
         let meta := Cursors.responseMeta state curMap prevMap kind in
         JsMap.get meta "completeCurWeek" = Some (JBool (Cursors.completeCurWeek state))
         /\ JsMap.get meta "completePrevWeek"
            = Some (JBool (Cursors.completePrevWeek state))
         /\ JsMap.get meta "curWeekProcessedBlock"
            = Some (optText (blockText (Cursors.curWeekProcessedBlock state)))
         /\ JsMap.get meta "prevWeekProcessedBlock"
            = Some (optText (blockText (Cursors.prevWeekProcessedBlock state)))
         /\ hasPerBucketFlags meta).
Proof.
  split.
  - intros state includeNames fcMap. eexists. split; [reflexivity|].
    split; [reflexivity|]. split; [reflexivity|]. split; [|reflexivity].
    apply no_flag_no_buckets. unfold responseMeta. simpl.
    now destruct (blockText (lastProcessedBlock state)).
  - intros state curMap prevMap kind meta. repeat split.
    exists "completeCurWeek", "completePrevWeek". do 2 eexists.
    split; [discriminate|]. split; reflexivity.
Qed.

(** ** Cold backfill *)

Lemma getBlockByTime_trace (env : Env) (ts : Z) (closest : string) (w : World) :
  trace (snd (getBlockByTimeBaseScan env ts closest w))
  = EvBlockByTime (Z.max 0 ts) closest (blockByTime env (trace w) (Z.max 0 ts) closest)
    :: trace w.
Proof.
  unfold getBlockByTimeBaseScan.
  destruct (blockByTime env (trace w) (Z.max 0 ts) closest) as [e | b]; [reflexivity|].
  destruct (negb (r_ok b)); [reflexivity|].
  destruct (negb (j_status b =? "1")%string); [reflexivity|].
  destruct (Js.BigInt (j_resultString b)); reflexivity.
Qed.

Section Grows.

Variable env : Env.
Variable P : Event -> Prop.
Hypothesis P_all : forall ev, P ev.

Lemma emits_getBlockByTimeBaseScan (ts : Z) (closest : string) :
  emits P (getBlockByTimeBaseScan env ts closest).
Proof.
  intros w. eexists [_]. split; [apply getBlockByTime_trace | auto].
Qed.

Lemma emits_getBlockTimestampSec (n : Z) : emits P (getBlockTimestampSec env n).
Proof.
  apply emits_bind.
  - apply emits_withRpcRotation; auto. intros; apply emits_rpcCall; auto.
  - intros [l | s | [ts|] |]; try apply emits_throw.
    destruct (ts =? "")%string; [apply emits_throw|].
    apply emits_bind; [apply emits_lift | intros; apply emits_ret].
Qed.

Lemma emits_searchBlock (target : Z) :
  forall fuel lo hi ans, emits P (searchBlock env fuel target lo hi ans).
Proof.
  induction fuel as [|fuel IH]; intros lo hi ans; simpl.
  - apply emits_outOfFuel.
  - apply emits_if; [apply emits_ret|].
    apply emits_bind; [apply emits_getBlockTimestampSec|].
    intros ts. repeat apply emits_if; try apply emits_ret; apply IH.
Qed.

Lemma emits_resolveFromBlock (fuel : nat) (anchor latest : Z) :
  emits P (resolveFromBlock env fuel anchor latest).
Proof.
  apply emits_try_catch; [apply emits_getBlockByTimeBaseScan|].
  intros _. apply emits_try_catch.
  - apply emits_bind; [apply emits_searchBlock | intros; apply emits_ret].
  - intros; apply emits_ret.
Qed.

Lemma emits_backfill_scan (fuel : nat) (fromBlock latest deadlineMs : Z) :
  emits P (try_catch
             (bind (fetchLogsViaBaseScan env fuel fromBlock latest deadlineMs)
                   (fun logs => ret (mkScan logs latest true)))
             (fun _ => fetchLogsRange env fuel fromBlock latest 8000 900 deadlineMs)).
Proof.
  apply emits_try_catch.
  - apply emits_bind; [|intros; apply emits_ret].
    apply emits_scanPages; auto.
  - intros _. apply (emits_scanChunks env P) with (from0 := fromBlock); auto; lia.
Qed.

End Grows.

(** A cold backfill that returns has asked the explorer for the block at
    the anchor time. *)
Lemma backfillTwoWeeks_looks_up (env : Env) (fuel : nat) (now deadlineMs : Z)
  (w w' : World) (st' : State) :
  backfillTwoWeeks env fuel now deadlineMs w = (Ret st', w') ->
  exists after ts r before,
    trace w' = (after ++ EvBlockByTime ts "before" r :: before ++ trace w)%list.
Proof.
  intros H. unfold backfillTwoWeeks in H.
  apply bind_Ret_inv in H. destruct H as (latest & w1 & G & H).
  destruct (emits_at (fun _ => True) _ _ _ _
              (emits_getLatestBlock env _ (fun _ _ => I) (fun _ => I)) G)
    as (before & T1 & _).
  apply bind_Ret_inv in H. destruct H as (fromBlock & w2 & R & H).
  assert (exists n2 ts r, trace w2 = (n2 ++ EvBlockByTime ts "before" r :: trace w1)%list)
    as (n2 & ts & r & T2).
  { unfold resolveFromBlock in R. apply try_catch_Ret_inv in R.
    pose proof (getBlockByTime_trace env ((weekStartUtcMs now - WEEK_MS) / 1000 - 3600)
                                     "before" w1) as L.
    destruct R as [R | (e & w1' & R & K)]; rewrite R in L; simpl in L.
    - exists []. eauto.
    - eapply emits_at in K.
      + destruct K as (n2 & T & _). rewrite T, L. eauto.
      + apply emits_try_catch.
        * apply emits_bind; [apply emits_searchBlock; exact (fun _ => I)
                            | intros; apply emits_ret].
        * intros; apply emits_ret. }
  apply bind_Ret_inv in H. destruct H as (created & w3 & N & H).
  injection N as _ <-.
  apply bind_Ret_inv in H. destruct H as (sc & w4 & S & H).
  eapply emits_at in S; [|apply emits_backfill_scan; exact (fun _ => I)].
  destruct S as (n4 & T4 & _).
  apply bind_Ret_inv in H. destruct H as (weeks1 & w5 & L & H).
  apply lift_Ret_inv in L. destruct L as [_ ->].
  apply bind_Ret_inv in H. destruct H as (updated & w6 & N & H).
  injection N as _ <-. injection H as _ <-.
  exists (EvNow (clock env (trace w4)) :: n4 ++ EvNow (clock env (trace w2)) :: n2)%list,
         ts, r, before.
  simpl. rewrite T4. simpl. rewrite T2, T1.
  repeat (rewrite <- app_assoc; simpl). reflexivity.
Qed.

(** ** Week rollover *)

Lemma WEEK_MS_pos : 0 < WEEK_MS.
Proof. reflexivity. Qed.

Lemma incrementalUpdate_backfills (env : Env) (fuel : nat) (st : State)
  (deadlineMs : Z) (w : World) :
  currentWeekMs st <> weekStartUtcMs (clock env (trace w)) ->
  incrementalUpdate env fuel (Some st) deadlineMs w
  = bind (getLatestBlock env)
         (fun _ => backfillTwoWeeks env fuel (clock env (trace w)) deadlineMs)
         (record (EvNow (clock env (trace w))) w).
Proof.
  intros Hw. unfold incrementalUpdate.
  rewrite (bind_Ret (nowMs env) _ w (record (EvNow (clock env (trace w))) w)
                    (clock env (trace w)) eq_refl).
  apply bind_ext. intros latest w1.
  destruct (Z.eqb_spec (currentWeekMs st) (weekStartUtcMs (clock env (trace w))));
    [contradiction|].
  cbn [negb]. rewrite orb_true_r. reflexivity.
Qed.

Lemma emits_Rollover_scan (env : Env) (fuel : nat) (from latest deadlineMs : Z) :
  emits noLookup (Rollover.fetchLogsRange env fuel from latest 8000 900 deadlineMs)
  /\ emits noLookup (Rollover.fetchLogsViaBaseScan env fuel from latest deadlineMs).
Proof.
  split.
  - apply (emits_Rollover_scanChunks env noLookup) with (from0 := from);
      try reflexivity; lia.
  - apply (emits_Rollover_scanPages env noLookup); reflexivity.
Qed.

Lemma emits_Rollover_backfillTwoWeeks (env : Env) (fuel : nat) (now deadlineMs : Z) :
  emits noLookup (Rollover.backfillTwoWeeks env fuel now deadlineMs).
Proof.
  unfold Rollover.backfillTwoWeeks.
  apply emits_bind; [apply emits_getLatestBlock; reflexivity|]. intros latest.
  apply emits_bind; [apply emits_nowMs; reflexivity|]. intros _.
  apply emits_bind.
  { apply emits_try_catch; [|intros _]; apply emits_Rollover_scan. }
  intros logs. apply emits_bind; [apply emits_lift|]. intros weeks1.
  apply emits_bind; [apply emits_nowMs; reflexivity|]. intros; apply emits_ret.
Qed.

Lemma emits_Rollover_catchUp (env : Env) (fuel : nat) (st : Rollover.State)
  (latest deadlineMs : Z) :
  emits noLookup (Rollover.catchUp env fuel st latest deadlineMs).
Proof.
  unfold Rollover.catchUp. apply emits_if.
  - apply emits_bind; [apply emits_nowMs; reflexivity | intros; apply emits_ret].
  - apply emits_bind.
    { apply emits_try_catch; [|intros _]; apply emits_Rollover_scan. }
    intros logs. apply emits_bind; [apply emits_lift|]. intros weeks1.
    apply emits_bind; [apply emits_nowMs; reflexivity|]. intros; apply emits_ret.
Qed.

(** The revision with rollover never looks a block up by time. *)
Lemma emits_Rollover_incrementalUpdate (env : Env) (fuel : nat)
  (existing : option Rollover.State) (deadlineMs : Z) :
  emits noLookup (Rollover.incrementalUpdate env fuel existing deadlineMs).
Proof.
  unfold Rollover.incrementalUpdate.
  apply emits_bind; [apply emits_nowMs; reflexivity|]. intros now.
  apply emits_bind; [apply emits_getLatestBlock; reflexivity|]. intros latest.
  destruct existing as [st|]; [|apply emits_Rollover_backfillTwoWeeks].
  apply emits_if; [apply emits_Rollover_backfillTwoWeeks|].
  apply emits_if; [|apply emits_Rollover_catchUp].
  apply emits_if; [apply emits_Rollover_backfillTwoWeeks | apply emits_Rollover_catchUp].
Qed.

Lemma Rollover_incrementalUpdate_rotates (env : Env) (fuel : nat)
  (st : Rollover.State) (deadlineMs b : Z) (w : World) :
  Rollover.lastProcessedBlock st = Some b -> b <> 0 ->
  Rollover.currentWeekMs st = weekStartUtcMs (clock env (trace w)) - WEEK_MS ->
  Rollover.incrementalUpdate env fuel (Some st) deadlineMs w
  = bind (getLatestBlock env)
         (fun latest =>
            Rollover.catchUp env fuel
              (Rollover.rolloverSnapshot st (weekStartUtcMs (clock env (trace w)))
                                         (weekStartUtcMs (clock env (trace w)) - WEEK_MS))
              latest deadlineMs)
         (record (EvNow (clock env (trace w))) w).
Proof.
  intros Hb Hz Hw. unfold Rollover.incrementalUpdate.
  rewrite (bind_Ret (nowMs env) _ w (record (EvNow (clock env (trace w))) w)
                    (clock env (trace w)) eq_refl).
  apply bind_ext. intros latest w1.
  rewrite Hb, Hw. cbn [truthyBlock negb].
  destruct (Z.eqb_spec b 0); [contradiction|]. cbn [negb].
  pose proof WEEK_MS_pos.
  destruct (Z.eqb_spec (weekStartUtcMs (clock env (trace w)) - WEEK_MS)
                       (weekStartUtcMs (clock env (trace w)))); [lia|].
  rewrite Z.eqb_refl. reflexivity.
Qed.

Lemma rolloverSnapshot_buckets (st : Rollover.State) (cur prev : Z) :
  cur <> prev ->
  let snap := Rollover.rolloverSnapshot st cur prev in
  weekMapOrEmpty (Rollover.weeks snap) prev
  = weekMapOrEmpty (Rollover.weeks st) (Rollover.currentWeekMs st)
  /\ weekMapOrEmpty (Rollover.weeks snap) cur = []
  /\ Rollover.lastProcessedBlock snap = Rollover.lastProcessedBlock st
  /\ Rollover.currentWeekMs snap = cur
  /\ Rollover.lastWeekMs snap = prev.
Proof.
  intros Hn snap. unfold snap, Rollover.rolloverSnapshot, weekMapOrEmpty, findWeek,
    getOrMakeWeekMap, findWeek. simpl.
  destruct (Z.eqb_spec cur prev); [contradiction|]. rewrite !Z.eqb_refl.
  repeat split. now destruct (find _ (Rollover.weeks st)).
Qed.

(** In [api/leaderboard.js] a state one week behind is rebuilt: the
    explorer is asked for the block at the anchor time, and the previous
    bucket of the result holds what the scan found (nothing here), not
    the 5 points of the old current bucket; the cursor moves from 90 to
    the chain head. *)
Lemma rollover_is_backfilled :
  exists st' w',
    incrementalUpdate Sample.stillEnv 5 (Some (Sample.stateBehind 90)) Sample.deadline0
                      Sample.world0 = (Ret st', w')
    /\ currentWeekMs (Sample.stateBehind 90) = currentWeekMs st' - WEEK_MS
    /\ schemaVersion (Sample.stateBehind 90) = STATE_SCHEMA_VERSION
    /\ weekMapOrEmpty (weeks (Sample.stateBehind 90)) (currentWeekMs (Sample.stateBehind 90))
       = [(Sample.addr1, 5)]
    /\ weekMapOrEmpty (weeks st') (lastWeekMs st') = []
    /\ lastProcessedBlock st' = Some 100
    /\ existsb isLookup (trace w') = true.
Proof.
  eexists. eexists. split; [vm_compute; reflexivity|].
  repeat split.
Qed.

(** C1.  A state whose current week is exactly one week behind the week
    of [now].  In [api/leaderboard.js], whatever its schema version,
    [incrementalUpdate] hands it to [backfillTwoWeeks]: a cold backfill,
    which (when it returns) has asked the explorer for the block at the
    anchor time.  In the revision with rollover, a state with
    [lastProcessedBlock] present is rotated instead: the snapshot has the
    old current totals as previous bucket, an empty current bucket and the
    same cursor; the update then catches up from the snapshot, without any
    time-to-block lookup, and returns the snapshot as it is (but for
    [updatedAt]) when the chain head is not beyond the cursor. *)
Theorem week_rollover_update (env : Env) (fuel : nat) (deadlineMs : Z) (w : World) :
  let now := clock env (trace w) in
  let cur := weekStartUtcMs now in
  let prev := cur - WEEK_MS in
  let w0 := record (EvNow now) w in
  (forall st : State,
      currentWeekMs st = prev ->
      incrementalUpdate env fuel (Some st) deadlineMs w
      = bind (getLatestBlock env) (fun _ => backfillTwoWeeks env fuel now deadlineMs) w0
      /\ forall st' w',
           incrementalUpdate env fuel (Some st) deadlineMs w = (Ret st', w') ->
           exists after ts r before,
             trace w' = (after ++ EvBlockByTime ts "before" r :: before ++ trace w)%list)
  /\ (forall (st : Rollover.State) (b : Z),
         Rollover.lastProcessedBlock st = Some b -> b <> 0 ->
         Rollover.currentWeekMs st = prev ->
         let snap := Rollover.rolloverSnapshot st cur prev in
         Rollover.incrementalUpdate env fuel (Some st) deadlineMs w
         = bind (getLatestBlock env)
                (fun latest => Rollover.catchUp env fuel snap latest deadlineMs) w0
         /\ weekMapOrEmpty (Rollover.weeks snap) prev
            = weekMapOrEmpty (Rollover.weeks st) (Rollover.currentWeekMs st)
         /\ weekMapOrEmpty (Rollover.weeks snap) cur = []
         /\ Rollover.lastProcessedBlock snap = Some b
         /\ (exists new,
                trace (snd (Rollover.incrementalUpdate env fuel (Some st) deadlineMs w))
                = (new ++ trace w)%list
                /\ Forall noLookup new)
         /\ (forall latest w1,
                getLatestBlock env w0 = (Ret latest, w1) -> latest <= b ->
                Rollover.incrementalUpdate env fuel (Some st) deadlineMs w
                = (Ret (Rollover.mkState cur prev (Some b) (Rollover.weeks snap)
                                         (clock env (trace w1))),
                   record (EvNow (clock env (trace w1))) w1))).
Proof.
  intros now cur prev w0. pose proof WEEK_MS_pos as Hpos. split.
  - intros st Hw.
    assert (currentWeekMs st <> weekStartUtcMs (clock env (trace w))) as Hn
      by (rewrite Hw; unfold prev, cur, now; lia).
    pose proof (incrementalUpdate_backfills env fuel st deadlineMs w Hn) as E.
    split; [exact E|].
    intros st' w' H. rewrite E in H.
    apply bind_Ret_inv in H. destruct H as (latest & w1 & G & H).
    destruct (emits_at (fun _ => True) _ _ _ _
                (emits_getLatestBlock env _ (fun _ _ => I) (fun _ => I)) G)
      as (n1 & T1 & _).
    destruct (backfillTwoWeeks_looks_up _ _ _ _ _ _ _ H) as (after & ts & r & before & T).
    exists after, ts, r, (before ++ n1 ++ [EvNow (clock env (trace w))])%list.
    rewrite T, T1. simpl. now rewrite <- !app_assoc.
  - intros st b Hb Hz Hw snap.
    pose proof (Rollover_incrementalUpdate_rotates env fuel st deadlineMs b w Hb Hz Hw) as E.
    destruct (rolloverSnapshot_buckets st cur prev ltac:(unfold prev; lia))
      as (Bp & Bc & Bl & _ & _).
    split; [exact E|]. split; [exact Bp|]. split; [exact Bc|].
    split; [fold snap in Bl; now rewrite Bl|].
    split; [apply emits_Rollover_incrementalUpdate|].
    intros latest w1 G Hl. rewrite E, (bind_Ret _ _ _ _ _ G).
    unfold Rollover.catchUp, snap, Rollover.rolloverSnapshot.
    cbn [Rollover.lastProcessedBlock Rollover.currentWeekMs Rollover.lastWeekMs
         Rollover.weeks]. rewrite Hb.
    destruct (Z.ltb_spec latest (b + 1)); [reflexivity | lia].
Qed.

Lemma week_rollover_update_witness :
  exists t w',
    Rollover.incrementalUpdate Sample.stillEnv 5 (Some (Sample.rolloverStateBehind 100))
                               Sample.deadline0 Sample.world0
    = (Ret (Rollover.mkState Sample.week0 Sample.weekM1 (Some 100)
              [mkWeek Sample.week0 []; mkWeek Sample.weekM1 [(Sample.addr1, 5)]] t),
       w').
Proof.
  eexists. eexists.
  destruct (week_rollover_update Sample.stillEnv 5 Sample.deadline0 Sample.world0)
    as [_ R].
  destruct (R (Sample.rolloverStateBehind 100) 100 eq_refl ltac:(discriminate) eq_refl)
    as (_ & _ & _ & _ & _ & N).
  eapply eq_trans; [eapply N; [reflexivity | vm_compute; discriminate]|].
  reflexivity.
Defined.
